(** * Peak card game: rules engine and game state machine

    A shallow embedding of [card.py], [player.py], [rules.py] and [game.py].

    Conventions of the embedding:
    - a Python [int] is a [Z]; list lengths and list positions are [nat];
    - a Python list is a [list] in the same order, so the top of the deck
      (the element [list.pop()] removes) is the LAST element;
    - a reference to a [Player] object held in [PeakGame.players] is the
      position of that object in the list; the four objects are created by
      the constructor and the list is never resized afterwards;
    - an exception raised by the source is a value [Raise e] of the result
      type [M];
    - [print] calls are output only and are left out. *)

From Stdlib Require Import ZArith Lia Bool Permutation.
From stdpp Require Import base tactics option list strings numbers.

Open Scope nat_scope.

(** ** card.py *)

Inductive CardType := REGULAR | PEAK.

Record Card := mkCard { value : Z; card_type : CardType }.

#[global] Instance CardType_eq_dec : EqDecision CardType.
Proof. solve_decision. Defined.

#[global] Instance Card_eq_dec : EqDecision Card.
Proof. solve_decision. Defined.

(** [Card.__eq__]: same value and same card type. *)
Definition Card_eq (a b : Card) : bool :=
  (value a =? value b)%Z && bool_decide (card_type a = card_type b).

Definition is_peak_card (c : Card) : bool := bool_decide (card_type c = PEAK).

(** [Deck._create_deck]: the ten regular cards 1..10 followed by ten Peak
    cards of value 0. *)
Definition _create_deck : list Card :=
  ((λ v, mkCard (Z.of_nat v) REGULAR) <$> seq 1 10)
  ++ replicate 10 (mkCard 0 PEAK).

(** [list.pop()] on a non-empty list: the remaining list and the last
    element. *)
Fixpoint pop {A} (l : list A) : option (list A * A) :=
  match l with
  | [] => None
  | x :: l' =>
      match pop l' with
      | None => Some ([], x)
      | Some (r, y) => Some (x :: r, y)
      end
  end.

(** [Deck.deal_card]: the dealt card (if any) and the deck afterwards. *)
Definition deal_card (cards : list Card) : option Card * list Card :=
  match pop cards with
  | Some (rest, c) => (Some c, rest)
  | None => (None, cards)
  end.

(** [Deck.deal_cards]: up to [count] cards, in dealing order, and the deck
    afterwards; the loop stops at the first empty deal. *)
Fixpoint deal_cards (count : nat) (cards : list Card) : list Card * list Card :=
  match count with
  | 0 => ([], cards)
  | S n =>
      match deal_card cards with
      | (Some c, rest) =>
          let '(dealt, rest') := deal_cards n rest in (c :: dealt, rest')
      | (None, _) => ([], cards)
      end
  end.

(** ** player.py *)

Record Player := mkPlayer {
  name : string;
  hand : list Card;
  is_disqualified : bool;
  has_finished : bool
}.

Definition Player_init (n : string) : Player := mkPlayer n [] false false.

Definition add_card (p : Player) (c : Card) : Player :=
  let h := hand p ++ [c] in
  mkPlayer (name p) h
    (if 20 <? length h then true else is_disqualified p)
    (has_finished p).

Definition add_cards (p : Player) (cs : list Card) : Player :=
  fold_left add_card cs p.

(** [list.remove(x)]: drops the first element equal to [x]; [None] stands for
    the [ValueError] of a missing element. *)
Fixpoint list_remove_first (c : Card) (l : list Card) : option (list Card) :=
  match l with
  | [] => None
  | x :: l' =>
      if Card_eq x c then Some l'
      else match list_remove_first c l' with
           | Some r => Some (x :: r)
           | None => None
           end
  end.

(** [Player.remove_card]: the player afterwards and the returned flag. *)
Definition remove_card (p : Player) (c : Card) : Player * bool :=
  match list_remove_first c (hand p) with
  | Some h => (mkPlayer (name p) h (is_disqualified p) (has_finished p), true)
  | None => (p, false)
  end.

Definition has_cards (p : Player) : bool := 0 <? length (hand p).

Definition disqualify (p : Player) : Player :=
  mkPlayer (name p) (hand p) true (has_finished p).

Definition finish_game (p : Player) : Player :=
  mkPlayer (name p) (hand p) (is_disqualified p) true.

Definition is_active (p : Player) : bool :=
  negb (is_disqualified p) && negb (has_finished p).

(** ** rules.py *)

Definition can_play_card (card : Card) (last_played_card : option Card) : bool :=
  if is_peak_card card then true
  else match last_played_card with
       | None => true
       | Some last =>
           if is_peak_card last then true
           else if negb (is_peak_card card) && negb (is_peak_card last)
                then (Z.abs (value card - value last) <=? 1)%Z
                else false
       end.

Definition can_finish_on_card (card : Card) (high_card_played_this_round : bool) : bool :=
  if is_peak_card card then false
  else if ((1 <=? value card) && (value card <=? 4))%Z then false
  else if ((5 <=? value card) && (value card <=? 6))%Z then true
  else if ((8 <=? value card) && (value card <=? 10))%Z then high_card_played_this_round
  else if (value card =? 7)%Z then false
  else false.

Definition should_disqualify_player (p : Player) : bool := 20 <? length (hand p).

Definition get_peak_card_penalty : nat := 5.

Definition is_high_value_card (card : Card) : bool :=
  negb (is_peak_card card) && ((8 <=? value card) && (value card <=? 10))%Z.

Definition is_valid_starting_hand_size : nat := 7.

Definition get_max_players : nat := 4.

(** [[p for p in players if f(p)]] as the list of the references it holds:
    the positions, counted from [k], of the players satisfying [f]. *)
Fixpoint select_from (f : Player → bool) (k : nat) (players : list Player) : list nat :=
  match players with
  | [] => []
  | p :: rest =>
      if f p then k :: select_from f (S k) rest else select_from f (S k) rest
  end.

Definition select (f : Player → bool) (players : list Player) : list nat :=
  select_from f 0 players.

(** [GameRules.get_winner]. *)
Definition get_winner (players : list Player) : option nat :=
  let active_players := select is_active players in
  if length active_players =? 1 then head active_players
  else if length active_players =? 0 then None
  else
    let finished_players := select has_finished players in
    match finished_players with
    | w :: _ => Some w
    | [] => None
    end.

(** ** Exceptions *)

Inductive Exn := IndexError | ZeroDivisionError | ValueError.

Inductive M (A : Type) : Type :=
  | Return (a : A)
  | Raise (e : Exn).
Arguments Return {A} a.
Arguments Raise {A} e.

#[global] Instance M_ret : MRet M := λ A a, Return a.

#[global] Instance M_bind : MBind M := λ A B f m,
  match m with
  | Return a => f a
  | Raise e => Raise e
  end.

(** [a % n] on non-negative operands. *)
Definition pymod (a n : nat) : M nat :=
  if n =? 0 then Raise ZeroDivisionError else Return (a mod n).

(** [players[i]] for a non-negative [i]. *)
Definition player_at (players : list Player) (i : nat) : M Player :=
  match players !! i with
  | Some p => Return p
  | None => Raise IndexError
  end.

(** ** game.py *)

Record PeakGame := mkGame {
  players : list Player;
  deck : list Card;
  discard_pile : list Card;
  current_player_index : nat;
  game_over : bool;
  winner : option nat;
  high_card_played_this_round : bool;
  round_number : nat
}.

Definition with_players (g : PeakGame) (ps : list Player) : PeakGame :=
  mkGame ps (deck g) (discard_pile g) (current_player_index g) (game_over g)
    (winner g) (high_card_played_this_round g) (round_number g).

Definition with_deck (g : PeakGame) (d : list Card) : PeakGame :=
  mkGame (players g) d (discard_pile g) (current_player_index g) (game_over g)
    (winner g) (high_card_played_this_round g) (round_number g).

Definition with_discard_pile (g : PeakGame) (d : list Card) : PeakGame :=
  mkGame (players g) (deck g) d (current_player_index g) (game_over g)
    (winner g) (high_card_played_this_round g) (round_number g).

Definition with_current_player_index (g : PeakGame) (i : nat) : PeakGame :=
  mkGame (players g) (deck g) (discard_pile g) i (game_over g)
    (winner g) (high_card_played_this_round g) (round_number g).

Definition with_game_over (g : PeakGame) (b : bool) : PeakGame :=
  mkGame (players g) (deck g) (discard_pile g) (current_player_index g) b
    (winner g) (high_card_played_this_round g) (round_number g).

Definition with_winner (g : PeakGame) (w : option nat) : PeakGame :=
  mkGame (players g) (deck g) (discard_pile g) (current_player_index g)
    (game_over g) w (high_card_played_this_round g) (round_number g).

Definition with_high_card (g : PeakGame) (b : bool) : PeakGame :=
  mkGame (players g) (deck g) (discard_pile g) (current_player_index g)
    (game_over g) (winner g) b (round_number g).

Definition with_round_number (g : PeakGame) (n : nat) : PeakGame :=
  mkGame (players g) (deck g) (discard_pile g) (current_player_index g)
    (game_over g) (winner g) (high_card_played_this_round g) n.

(** The object at seat [i] is mutated into [p]. *)
Definition set_player (g : PeakGame) (i : nat) (p : Player) : PeakGame :=
  with_players g (<[i := p]> (players g)).

(** [PeakGame.__init__].  [shuffle] is the rearrangement [random.shuffle]
    performs on the freshly built deck. *)
Definition PeakGame_init (shuffle : list Card → list Card)
    (player_names : list string) : M PeakGame :=
  if negb (length player_names =? get_max_players) then Raise ValueError
  else Return (mkGame (Player_init <$> player_names) (shuffle _create_deck)
                 [] 0 false None false 1).

(** The loop of [setup_game]: each player in turn is dealt [n] cards. *)
Fixpoint deal_hands (n : nat) (ps : list Player) (cards : list Card)
    : list Player * list Card :=
  match ps with
  | [] => ([], cards)
  | p :: rest =>
      let '(dealt, cards') := deal_cards n cards in
      let '(rest', cards'') := deal_hands n rest cards' in
      (add_cards p dealt :: rest', cards'')
  end.

Definition setup_game (g : PeakGame) : PeakGame :=
  let starting_hand_size := is_valid_starting_hand_size in
  let '(ps, cards) := deal_hands starting_hand_size (players g) (deck g) in
  with_deck (with_players g ps) cards.

(** [get_current_player], as a reference. *)
Definition get_current_player (g : PeakGame) : M nat :=
  _ ← player_at (players g) (current_player_index g);
  mret (current_player_index g).

Definition get_last_played_card (g : PeakGame) : option Card :=
  list.last (discard_pile g).

(** [_check_game_over]. *)
Definition _check_game_over (g : PeakGame) : PeakGame :=
  let g :=
    match get_winner (players g) with
    | Some w => with_winner (with_game_over g true) (Some w)
    | None => g
    end in
  let active_players := select is_active (players g) in
  if length active_players =? 0 then with_game_over g true else g.

(** The scan of [_get_next_active_player] over the loop indices [offsets]. *)
Fixpoint first_active_from (ps : list Player) (start_index : nat) (offsets : list nat)
    : M (option nat) :=
  match offsets with
  | [] => mret None
  | i :: rest =>
      player_index ← pymod (start_index + i) (length ps);
      p ← player_at ps player_index;
      if is_active p then mret (Some player_index)
      else first_active_from ps start_index rest
  end.

Definition _get_next_active_player (g : PeakGame) : M (option nat) :=
  start_index ← pymod (current_player_index g + 1) (length (players g));
  first_active_from (players g) start_index (seq 0 (length (players g))).

(** [_handle_peak_card]. *)
Definition _handle_peak_card (g : PeakGame) : M PeakGame :=
  let penalty_cards := get_peak_card_penalty in
  next_player ← _get_next_active_player g;
  match next_player with
  | Some j =>
      let '(dealt_cards, rest) := deal_cards penalty_cards (deck g) in
      p ← player_at (players g) j;
      let p := add_cards p dealt_cards in
      let p := if should_disqualify_player p then disqualify p else p in
      mret (set_player (with_deck g rest) j p)
  | None => mret g
  end.

(** The [for ... else] loop of [_next_player]: the index the loop leaves
    behind after at most [laps] steps, and whether it left by [break]. *)
Fixpoint advance (ps : list Player) (index : nat) (laps : nat) : M (nat * bool) :=
  match laps with
  | 0 => mret (index, false)
  | S n =>
      index' ← pymod (index + 1) (length ps);
      p ← player_at ps index';
      if is_active p then mret (index', true) else advance ps index' n
  end.

Definition _next_player (g : PeakGame) : M PeakGame :=
  let original_index := current_player_index g in
  '(index, found) ← advance (players g) original_index (length (players g));
  let g := with_current_player_index g index in
  if negb found then mret (_check_game_over g)
  else if index <=? original_index
       then mret (with_high_card (with_round_number g (round_number g + 1)) false)
       else mret g.

(** The [player] argument of [play_card] and [draw_card]: one of the game's
    own player objects, or some other [Player] object. *)
Inductive PlayerRef := Seat (i : nat) | Stranger.

(** Object identity, which is what [player != self.get_current_player()]
    compares ([Player] defines no [__eq__]). *)
Definition same_player (r : PlayerRef) (i : nat) : bool :=
  match r with
  | Seat j => j =? i
  | Stranger => false
  end.

(** [card in hand]. *)
Definition card_in (c : Card) (h : list Card) : bool :=
  existsb (λ x, Card_eq x c) h.

(** [play_card]: the returned flag and the game afterwards. *)
Definition play_card (g : PeakGame) (player : PlayerRef) (card : Card)
    : M (bool * PeakGame) :=
  cur ← get_current_player g;
  if negb (same_player player cur) then mret (false, g) else
  p ← player_at (players g) cur;
  if negb (card_in card (hand p)) then mret (false, g) else
  let last_card := get_last_played_card g in
  if negb (can_play_card card last_card) then mret (false, g) else
  let g := set_player g cur (fst (remove_card p card)) in
  let g := with_discard_pile g (discard_pile g ++ [card]) in
  let g := if is_high_value_card card then with_high_card g true else g in
  g ← (if is_peak_card card then _handle_peak_card g else mret g);
  p ← player_at (players g) cur;
  if negb (has_cards p) then
    if can_finish_on_card card (high_card_played_this_round g) then
      let g := set_player g cur (finish_game p) in
      mret (true, _check_game_over g)
    else
      let '(penalty_card, rest) := deal_card (deck g) in
      let g :=
        match penalty_card with
        | Some c => set_player (with_deck g rest) cur (add_card p c)
        | None => g
        end in
      g ← _next_player g;
      mret (true, g)
  else
    g ← _next_player g;
    mret (true, g).

(** [draw_card]. *)
Definition draw_card (g : PeakGame) (player : PlayerRef) : M (bool * PeakGame) :=
  cur ← get_current_player g;
  if negb (same_player player cur) then mret (false, g) else
  match deal_card (deck g) with
  | (Some c, rest) =>
      p ← player_at (players g) cur;
      let p := add_card p c in
      let p := if should_disqualify_player p then disqualify p else p in
      g ← _next_player (set_player (with_deck g rest) cur p);
      mret (true, g)
  | (None, _) => mret (false, g)
  end.

(** ** Observations used by the statements *)

Definition hand_sizes (g : PeakGame) : list nat :=
  (λ p, length (hand p)) <$> players g.

Definition total_cards (g : PeakGame) : nat :=
  length (deck g) + sum_list (hand_sizes g) + length (discard_pile g).

(** The states a driver can produce: a constructed game, then any sequence
    of [setup_game], [play_card] and [draw_card] calls that return. *)
Inductive reachable : PeakGame → Prop :=
  | reach_init shuffle names g :
      Permutation (shuffle _create_deck) _create_deck →
      PeakGame_init shuffle names = Return g →
      reachable g
  | reach_setup g :
      reachable g → reachable (setup_game g)
  | reach_play g player card b g' :
      reachable g → play_card g player card = Return (b, g') → reachable g'
  | reach_draw g player b g' :
      reachable g → draw_card g player = Return (b, g') → reachable g'.

(** The players list is non-empty and the turn pointer is inside it. *)
Definition well_formed (g : PeakGame) : Prop :=
  current_player_index g < length (players g).

(** ** The phases of [play_card]

    [play_card] is one function in the source; its accepted branch is cut
    here into the three stretches the lemmas talk about. *)

(** Lines 82-90: the card leaves the hand, lands on the discard pile and may
    set the round flag. *)
Definition discard_phase (g : PeakGame) (cur : nat) (p : Player) (card : Card)
    : PeakGame :=
  let g := set_player g cur (fst (remove_card p card)) in
  let g := with_discard_pile g (discard_pile g ++ [card]) in
  if is_high_value_card card then with_high_card g true else g.

(** Lines 93-94. *)
Definition peak_phase (g : PeakGame) (card : Card) : M PeakGame :=
  if is_peak_card card then _handle_peak_card g else mret g.

(** Lines 97-115. *)
Definition finish_phase (g : PeakGame) (cur : nat) (card : Card)
    : M (bool * PeakGame) :=
  p ← player_at (players g) cur;
  if negb (has_cards p) then
    if can_finish_on_card card (high_card_played_this_round g) then
      let g := set_player g cur (finish_game p) in
      mret (true, _check_game_over g)
    else
      let '(penalty_card, rest) := deal_card (deck g) in
      let g :=
        match penalty_card with
        | Some c => set_player (with_deck g rest) cur (add_card p c)
        | None => g
        end in
      g ← _next_player g;
      mret (true, g)
  else
    g ← _next_player g;
    mret (true, g).

(** What [_handle_peak_card] does to the player it picks. *)
Definition penalised (q : Player) (dealt : list Card) : Player :=
  let q := add_cards q dealt in
  if should_disqualify_player q then disqualify q else q.

(** The number of cards held at seat [i]. *)
Definition hand_size (g : PeakGame) (i : nat) : nat :=
  from_option (λ p, length (hand p)) 0 (players g !! i).

(** ** Turn order, as the statements describe it *)

(** Walking from the seat after [cur], wrapping around, for one full lap
    (which ends on [cur] itself), seat [j] is the first active one. *)
Definition next_active_is (ps : list Player) (cur j : nat) : Prop :=
  ∃ k, k < length ps
       ∧ j = (cur + 1 + k) mod length ps
       ∧ (∃ p, ps !! j = Some p ∧ is_active p = true)
       ∧ ∀ k' q, k' < k →
           ps !! ((cur + 1 + k') mod length ps) = Some q → is_active q = false.

Definition no_active (ps : list Player) : Prop :=
  ∀ i p, ps !! i = Some p → is_active p = false.

(** ** A driver *)

(** One call of the public interface, and a sequence of such calls; the
    flag a call returns is dropped. *)
Inductive Move :=
  | Setup
  | Play (player : PlayerRef) (card : Card)
  | Draw (player : PlayerRef).

Definition step (g : PeakGame) (m : Move) : M PeakGame :=
  match m with
  | Setup => mret (setup_game g)
  | Play player card => '(_, g') ← play_card g player card; mret g'
  | Draw player => '(_, g') ← draw_card g player; mret g'
  end.

Fixpoint run (g : PeakGame) (ms : list Move) : M PeakGame :=
  match ms with
  | [] => mret g
  | m :: rest => g' ← step g m; run g' rest
  end.

(** Construction followed by a sequence of calls. *)
Definition session (shuffle : list Card → list Card) (names : list string)
    (ms : list Move) : M PeakGame :=
  g ← PeakGame_init shuffle names; run g ms.

(** ** Concrete sessions *)

Definition Peak : Card := mkCard 0 PEAK.
Definition Reg (v : Z) : Card := mkCard v REGULAR.

Definition roster : list string := ["Alice"; "Bob"; "Charlie"; "Diana"]%string.

(** A shuffle that leaves the deck as built: the Peak cards are on top. *)
Definition unshuffled (cards : list Card) : list Card := cards.

(** A shuffle whose outcome is drawn top-first in the order listed. *)
Definition stacked (cards : list Card) : list Card :=
  rev [Reg 8; Reg 9; Reg 10; Peak; Reg 1; Reg 2; Reg 3; Peak; Peak; Peak;
       Peak; Peak; Reg 4; Reg 5; Reg 6; Reg 7; Peak; Peak; Peak; Peak].

(** A shuffle that leaves four Peak cards at the bottom of the deck. *)
Definition thin (cards : list Card) : list Card :=
  rev [Peak; Peak; Reg 1; Reg 2; Reg 5; Reg 3; Reg 4; Reg 6; Reg 7; Reg 8;
       Reg 9; Reg 10; Peak; Peak; Peak; Peak; Peak; Peak; Peak; Peak].

(** Three rounds of an ordinary game on the [thin] deck, after which the
    first player holds a single Peak card and four cards are left to draw. *)
Definition down_to_four : list Move :=
  [Draw (Seat 0); Draw (Seat 1); Draw (Seat 2); Draw (Seat 3);
   Draw (Seat 0); Play (Seat 1) Peak; Draw (Seat 2); Draw (Seat 3);
   Play (Seat 0) (Reg 5); Draw (Seat 1); Draw (Seat 2); Draw (Seat 3)].

(** Everybody draws once, then the first player goes out on the 8. *)
Definition first_finish : list Move :=
  [Draw (Seat 0); Draw (Seat 1); Draw (Seat 2); Draw (Seat 3);
   Play (Seat 0) (Reg 8)].

(** The calls go on after that: the second and third players go out on the
    9 and the 10, each finished player drawing once to pass the turn. *)
Definition last_one_standing : list Move :=
  first_finish
  ++ [Draw (Seat 0); Play (Seat 1) (Reg 9);
      Draw (Seat 1); Play (Seat 2) (Reg 10);
      Draw (Seat 2)].

(** ** The rest of the card, player, rule and game interfaces *)

(** [Card.can_finish_on]. *)
Definition can_finish_on (c : Card) : bool :=
  if is_peak_card c then false
  else if ((1 <=? value c) && (value c <=? 4))%Z then false
  else if ((5 <=? value c) && (value c <=? 6))%Z then true
  else if ((8 <=? value c) && (value c <=? 10))%Z then true
  else false.

(** [Deck.cards_remaining] and [Deck.is_empty]. *)
Definition cards_remaining (cards : list Card) : nat := length cards.

Definition is_empty (cards : list Card) : bool := length cards =? 0.

(** [Player.get_peak_cards] and [Player.get_regular_cards]. *)
Definition get_peak_cards (p : Player) : list Card :=
  List.filter is_peak_card (hand p).

Definition get_regular_cards (p : Player) : list Card :=
  List.filter (λ card, negb (is_peak_card card)) (hand p).

(** [Player.can_finish_game]. *)
Definition can_finish_game (p : Player) : bool :=
  if is_disqualified p || negb (0 <? length (hand p)) then false
  else existsb can_finish_on (hand p).

(** The first loop of [GameRules.validate_game_state]. *)
Fixpoint disqualification_violations (ps : list Player) : list string :=
  match ps with
  | [] => []
  | p :: rest =>
      if negb (is_disqualified p) && should_disqualify_player p
      then (name p +:+ " should be disqualified (>20 cards)")
           :: disqualification_violations rest
      else disqualification_violations rest
  end.

(** [GameRules.validate_game_state]. *)
Definition validate_game_state (ps : list Player) : list string :=
  let violations := disqualification_violations ps in
  let active_players := select is_active ps in
  if length active_players <=? 1
  then violations
       ++ ["Game should end - only one or no active players remaining"%string]
  else violations.

(** [PeakGame.get_player_options]. *)
Definition get_player_options (g : PeakGame) (player : PlayerRef)
    : M (list Card * bool) :=
  cur ← get_current_player g;
  if negb (same_player player cur) then mret ([], false) else
  p ← player_at (players g) cur;
  if negb (is_active p) then mret ([], false) else
  let last_card := get_last_played_card g in
  let playable_cards :=
    List.filter (λ card, can_play_card card last_card) (hand p) in
  let can_draw := negb (is_empty (deck g)) in
  mret (playable_cards, can_draw).

(** ** Invariants used by the later statements *)

(** No player holds more than 20 cards without being disqualified. *)
Definition within_limit (p : Player) : Prop :=
  should_disqualify_player p = true → is_disqualified p = true.

(** What can happen to a player object over time: the name stays and the
    two flags are never cleared. *)
Definition grows_from (p p' : Player) : Prop :=
  name p' = name p
  ∧ (is_disqualified p = true → is_disqualified p' = true)
  ∧ (has_finished p = true → has_finished p' = true).

(** The shape of a game that has been set up from a fresh 20-card deck and
    played on: nothing left to draw, nobody out, the fourth seat without a
    card, and every seat the turn has not passed yet with cards to
    spare. *)
Definition dealt_out (g : PeakGame) : Prop :=
  deck g = []
  ∧ game_over g = false
  ∧ length (players g) = 4
  ∧ current_player_index g ≤ 3
  ∧ (∀ i p, players g !! i = Some p →
       is_active p = true ∧ length (hand p) ≤ 20)
  ∧ hand_size g 3 = 0
  ∧ (∀ i, current_player_index g ≤ i → i < 3 → 2 ≤ hand_size g i).

(** A winner is on record only in a game that is over, and is one of the
    seats. *)
Definition winner_is_settled (g : PeakGame) : Prop :=
  ∀ w, winner g = Some w → game_over g = true ∧ w < length (players g).

(** ** More concrete games *)

(** The game [PeakGame_init] returns for the roster when the shuffle leaves
    the deck as built, and when it stacks it. *)
Definition opening_game : PeakGame :=
  mkGame (Player_init <$> roster) (unshuffled _create_deck)
    [] 0 false None false 1.

Definition stacked_game : PeakGame :=
  mkGame (Player_init <$> roster) (stacked _create_deck)
    [] 0 false None false 1.

(** Everybody draws once. *)
Definition one_round_of_draws : list Move :=
  [Draw (Seat 0); Draw (Seat 1); Draw (Seat 2); Draw (Seat 3)].

(** After the deal from the deck as built, the first three players each
    play a card. *)
Definition three_plays : list Move :=
  [Play (Seat 0) Peak; Play (Seat 1) Peak; Play (Seat 2) (Reg 6)].

(** * Properties *)

(** ** Cards and the rule predicates *)

Lemma is_peak_card_true c : is_peak_card c = true ↔ card_type c = PEAK.
Proof. unfold is_peak_card. apply bool_decide_eq_true. Qed.

Lemma is_peak_card_false c : is_peak_card c = false ↔ card_type c = REGULAR.
Proof.
  unfold is_peak_card. rewrite bool_decide_eq_false.
  destruct (card_type c); split; congruence.
Qed.

Lemma Card_eq_true a b : Card_eq a b = true ↔ a = b.
Proof.
  unfold Card_eq. rewrite andb_true_iff, Z.eqb_eq, bool_decide_eq_true.
  destruct a, b; simpl; split; [intros [-> ->]; reflexivity | intros [= -> ->]; auto].
Qed.

(** C1. [can_play_card] accepts every Peak card, every card on an empty
    discard pile, every card on a Peak card, and a regular card on a regular
    card exactly when the two values differ by at most one; nothing else is
    accepted.  5 on 6 is accepted, 5 on 7 is not. *)
Theorem can_play_card_table (card : Card) (last_played : option Card) :
  (card_type card = PEAK → can_play_card card last_played = true)
  ∧ (last_played = None → can_play_card card last_played = true)
  ∧ (∀ l, last_played = Some l → card_type l = PEAK →
       can_play_card card last_played = true)
  ∧ (∀ l, last_played = Some l →
       card_type card = REGULAR → card_type l = REGULAR →
       (can_play_card card last_played = true
        ↔ (Z.abs (value card - value l) ≤ 1)%Z))
  ∧ (can_play_card card last_played = true
     ↔ card_type card = PEAK
       ∨ last_played = None
       ∨ ∃ l, last_played = Some l
              ∧ (card_type l = PEAK
                 ∨ (card_type card = REGULAR ∧ card_type l = REGULAR
                    ∧ (Z.abs (value card - value l) ≤ 1)%Z)))
  ∧ can_play_card (mkCard 5 REGULAR) (Some (mkCard 6 REGULAR)) = true
  ∧ can_play_card (mkCard 5 REGULAR) (Some (mkCard 7 REGULAR)) = false.
Proof.
  unfold can_play_card.
  destruct (is_peak_card card) eqn:Hc.
  - apply is_peak_card_true in Hc.
    repeat split; auto; intros; try congruence.
  - apply is_peak_card_false in Hc.
    destruct last_played as [l|].
    + destruct (is_peak_card l) eqn:Hl.
      * apply is_peak_card_true in Hl.
        repeat split; auto; intros; simplify_eq; try congruence.
        right; right. eauto.
      * apply is_peak_card_false in Hl. simpl.
        repeat split; auto; intros; simplify_eq; try congruence.
        -- by apply Z.leb_le.
        -- by apply Z.leb_le.
        -- right; right. exists l. split; [done|]. right.
           repeat split; auto. by apply Z.leb_le.
        -- apply Z.leb_le.
           destruct H as [?|[?|(l' & ? & [?|(_ & _ & ?)])]]; simplify_eq; congruence.
    + repeat split; auto; intros; simplify_eq.
Qed.

(** The table of C1 read at one regular pair. *)
Lemma can_play_card_table_witness :
  can_play_card (mkCard 3 REGULAR) (Some (mkCard 4 REGULAR)) = true.
Proof.
  apply (proj1 (proj2 (proj2 (proj2
           (can_play_card_table (mkCard 3 REGULAR) (Some (mkCard 4 REGULAR))))))
         (mkCard 4 REGULAR) eq_refl eq_refl eq_refl).
  simpl. lia.
Defined.

(** C2. [can_finish_on_card] refuses Peak cards, regular 1..4 and regular 7,
    accepts regular 5 and 6, and for regular 8..10 returns the round flag. *)
Theorem can_finish_on_card_table (card : Card) (high : bool) :
  (card_type card = PEAK → can_finish_on_card card high = false)
  ∧ (card_type card = REGULAR → (1 ≤ value card ≤ 4)%Z →
       can_finish_on_card card high = false)
  ∧ (card_type card = REGULAR → (5 ≤ value card ≤ 6)%Z →
       can_finish_on_card card high = true)
  ∧ (card_type card = REGULAR → value card = 7%Z →
       can_finish_on_card card high = false)
  ∧ (card_type card = REGULAR → (8 ≤ value card ≤ 10)%Z →
       can_finish_on_card card high = high)
  ∧ can_finish_on_card (mkCard 9 REGULAR) false = false
  ∧ can_finish_on_card (mkCard 9 REGULAR) true = true.
Proof.
  repeat apply conj; try reflexivity.
  - intros Hp%is_peak_card_true.
    unfold can_finish_on_card. by rewrite Hp.
  - intros Hc%is_peak_card_false Hv. unfold can_finish_on_card. rewrite Hc.
    destruct (Z.leb_spec 1 (value card)), (Z.leb_spec (value card) 4);
      simpl; auto; lia.
  - intros Hc%is_peak_card_false Hv. unfold can_finish_on_card. rewrite Hc.
    destruct (Z.leb_spec 1 (value card)), (Z.leb_spec (value card) 4),
      (Z.leb_spec 5 (value card)), (Z.leb_spec (value card) 6);
      simpl; auto; lia.
  - intros Hc%is_peak_card_false Hv. unfold can_finish_on_card.
    by rewrite Hc, Hv.
  - intros Hc%is_peak_card_false Hv. unfold can_finish_on_card. rewrite Hc.
    destruct (Z.leb_spec 1 (value card)), (Z.leb_spec (value card) 4),
      (Z.leb_spec 5 (value card)), (Z.leb_spec (value card) 6),
      (Z.leb_spec 8 (value card)), (Z.leb_spec (value card) 10);
      simpl; auto; lia.
Qed.

(** The table of C2 read at a regular 10 with the round flag set. *)
Lemma can_finish_on_card_table_witness :
  can_finish_on_card (mkCard 10 REGULAR) true = true.
Proof.
  apply (proj1 (proj2 (proj2 (proj2 (proj2
           (can_finish_on_card_table (mkCard 10 REGULAR) true)))))).
  - reflexivity.
  - simpl. lia.
Defined.

(** ** Selecting players, and the winner *)

Lemma elem_of_select_from f k ps i :
  i ∈ select_from f k ps ↔ k ≤ i ∧ ∃ p, ps !! (i - k) = Some p ∧ f p = true.
Proof.
  revert k. induction ps as [|q ps IH]; intros k; simpl.
  - rewrite elem_of_nil. split; [done|]. by intros (_ & p & ? & _).
  - assert (Htail : i ∈ select_from f (S k) ps
                    ↔ k < i ∧ ∃ p, (q :: ps) !! (i - k) = Some p ∧ f p = true).
    { rewrite IH. split.
      - intros (Hle & p & Hp & Hf). split; [lia|]. exists p. split; [|done].
        replace (i - k) with (S (i - S k)) by lia. done.
      - intros (Hlt & p & Hp & Hf). split; [lia|]. exists p. split; [|done].
        replace (i - k) with (S (i - S k)) in Hp by lia. done. }
    destruct (f q) eqn:Hq.
    + rewrite elem_of_cons, Htail. split.
      * intros [->|[Hlt Hp]]; [|split; [lia|done]].
        split; [lia|]. exists q. by rewrite Nat.sub_diag.
      * intros (Hle & p & Hp & Hf).
        destruct (decide (i = k)) as [->|Hne]; [by left|right].
        split; [lia|]. eauto.
    + rewrite Htail. split.
      * intros [Hlt Hp]. split; [lia|done].
      * intros (Hle & p & Hp & Hf).
        destruct (decide (i = k)) as [->|Hne].
        -- rewrite Nat.sub_diag in Hp. simpl in Hp. congruence.
        -- split; [lia|]. eauto.
Qed.

Lemma elem_of_select f ps i :
  i ∈ select f ps ↔ ∃ p, ps !! i = Some p ∧ f p = true.
Proof.
  unfold select. rewrite elem_of_select_from, Nat.sub_0_r.
  split; [by intros [_ ?]|]. intros ?. split; [lia|done].
Qed.

(** The selected positions come out in increasing order. *)
Lemma select_from_cons f k ps i rest :
  select_from f k ps = i :: rest →
  (∀ j q, j < i - k → ps !! j = Some q → f q = false)
  ∧ (∀ i', i' ∈ rest → i < i').
Proof.
  revert k. induction ps as [|q ps IH]; intros k; simpl; [done|].
  destruct (f q) eqn:Hq.
  - intros [= <- <-]. split.
    + intros j q' Hj. lia.
    + intros i' Hi'. apply elem_of_select_from in Hi'. lia.
  - intros Hsel. destruct (IH _ Hsel) as [Hbefore Hafter].
    assert (Hin : i ∈ select_from f (S k) ps) by (rewrite Hsel; left).
    apply elem_of_select_from in Hin as [Hle _].
    split; [|done].
    intros [|j] q' Hj; simpl.
    + by intros [= <-].
    + apply Hbefore. lia.
Qed.

Lemma select_nil f ps :
  select f ps = [] ↔ ∀ i p, ps !! i = Some p → f p = false.
Proof.
  split.
  - intros Hnil i p Hp. destruct (f p) eqn:Hf; [|done].
    assert (Hin : i ∈ select f ps) by (apply elem_of_select; eauto).
    rewrite Hnil in Hin. by apply elem_of_nil in Hin.
  - intros Hall. destruct (select f ps) as [|i rest] eqn:Hsel; [done|].
    assert (Hin : i ∈ select f ps) by (rewrite Hsel; left).
    apply elem_of_select in Hin as (p & Hp & Hf).
    rewrite (Hall _ _ Hp) in Hf. done.
Qed.

(** The head of a selection is the first position satisfying the test. *)
Lemma select_first f ps k q :
  ps !! k = Some q → f q = true →
  (∀ k' q', k' < k → ps !! k' = Some q' → f q' = false) →
  ∃ rest, select f ps = k :: rest.
Proof.
  intros Hk Hf Hfirst.
  destruct (select f ps) as [|i rest] eqn:Hsel.
  - rewrite select_nil in Hsel. rewrite (Hsel _ _ Hk) in Hf. done.
  - exists rest. f_equal.
    assert (Hin : i ∈ select f ps) by (rewrite Hsel; left).
    apply elem_of_select in Hin as (p & Hp & Hfp).
    unfold select in Hsel. apply select_from_cons in Hsel as [Hbefore _].
    destruct (Nat.lt_trichotomy i k) as [Hlt|[->|Hgt]]; [|done|].
    + rewrite (Hfirst _ _ Hlt Hp) in Hfp. done.
    + rewrite (Hbefore k q) in Hf; [done|lia|done].
Qed.

(** A selection with a single member. *)
Lemma select_unique f ps i p :
  ps !! i = Some p → f p = true →
  (∀ j q, ps !! j = Some q → f q = true → j = i) →
  select f ps = [i].
Proof.
  intros Hi Hf Huniq.
  destruct (select f ps) as [|x rest] eqn:Hsel.
  - rewrite select_nil in Hsel. rewrite (Hsel _ _ Hi) in Hf. done.
  - assert (Hx : x = i).
    { assert (Hin : x ∈ select f ps) by (rewrite Hsel; left).
      apply elem_of_select in Hin as (q & Hq & Hfq). eauto. }
    subst x. destruct rest as [|y rest]; [done|].
    assert (Hy : y = i).
    { assert (Hin : y ∈ select f ps) by (rewrite Hsel; right; left).
      apply elem_of_select in Hin as (q & Hq & Hfq). eauto. }
    unfold select in Hsel. apply select_from_cons in Hsel as [_ Hafter].
    assert (i < y) by (apply Hafter; left). lia.
Qed.

(** Two distinct members make a selection of length at least two. *)
Lemma select_two f ps i j p q :
  i ≠ j → ps !! i = Some p → f p = true → ps !! j = Some q → f q = true →
  2 ≤ length (select f ps).
Proof.
  intros Hne Hi Hfp Hj Hfq.
  assert (Hin_i : i ∈ select f ps) by (apply elem_of_select; eauto).
  assert (Hin_j : j ∈ select f ps) by (apply elem_of_select; eauto).
  destruct (select f ps) as [|x [|y rest]]; simpl; [| |lia].
  - by apply elem_of_nil in Hin_i.
  - apply list_elem_of_singleton in Hin_i, Hin_j. congruence.
Qed.

(** C3. [get_winner] returns the only active player when there is exactly
    one, nobody when there is none, and otherwise the first player of the
    list with [has_finished] set, or nobody when no player has finished.  It
    is a function of the player list, so it has at most one result. *)
Theorem get_winner_spec (ps : list Player) :
  (∀ i p, ps !! i = Some p → is_active p = true →
     (∀ j q, ps !! j = Some q → is_active q = true → j = i) →
     get_winner ps = Some i)
  ∧ ((∀ i p, ps !! i = Some p → is_active p = false) →
     get_winner ps = None)
  ∧ (∀ i j p q k r,
       i ≠ j → ps !! i = Some p → is_active p = true →
       ps !! j = Some q → is_active q = true →
       ps !! k = Some r → has_finished r = true →
       (∀ k' r', k' < k → ps !! k' = Some r' → has_finished r' = false) →
       get_winner ps = Some k)
  ∧ (∀ i j p q,
       i ≠ j → ps !! i = Some p → is_active p = true →
       ps !! j = Some q → is_active q = true →
       (∀ k r, ps !! k = Some r → has_finished r = false) →
       get_winner ps = None)
  ∧ (∀ w1 w2, get_winner ps = Some w1 → get_winner ps = Some w2 → w1 = w2).
Proof.
  repeat apply conj.
  - intros i p Hi Hact Huniq. unfold get_winner.
    by rewrite (select_unique is_active ps i p).
  - intros Hnone. unfold get_winner.
    assert (Hsel : select is_active ps = []) by (by apply select_nil).
    by rewrite Hsel.
  - intros i j p q k r Hne Hi Hp Hj Hq Hk Hr Hfirst. unfold get_winner.
    pose proof (select_two is_active ps i j p q Hne Hi Hp Hj Hq) as Hlen.
    destruct (Nat.eqb_spec (length (select is_active ps)) 1); [lia|].
    destruct (Nat.eqb_spec (length (select is_active ps)) 0); [lia|].
    destruct (select_first has_finished ps k r Hk Hr Hfirst) as [rest ->].
    done.
  - intros i j p q Hne Hi Hp Hj Hq Hnone. unfold get_winner.
    pose proof (select_two is_active ps i j p q Hne Hi Hp Hj Hq) as Hlen.
    destruct (Nat.eqb_spec (length (select is_active ps)) 1); [lia|].
    destruct (Nat.eqb_spec (length (select is_active ps)) 0); [lia|].
    assert (Hsel : select has_finished ps = []) by (by apply select_nil).
    by rewrite Hsel.
  - congruence.
Qed.

(** ** The exception monad *)

Lemma bind_Return {A B} (m : M A) (f : A → M B) (b : B) :
  m ≫= f = Return b ↔ ∃ a, m = Return a ∧ f a = Return b.
Proof.
  destruct m as [a|e]; simpl; split.
  - intros H. eauto.
  - by intros (a' & [= <-] & H).
  - intros H. discriminate H.
  - by intros (a' & [=] & _).
Qed.

Lemma pymod_Return a n : 0 < n → pymod a n = Return (a mod n).
Proof. intros Hn. unfold pymod. destruct (Nat.eqb_spec n 0); [lia|done]. Qed.

Lemma player_at_Return ps i p : player_at ps i = Return p ↔ ps !! i = Some p.
Proof.
  unfold player_at. destruct (ps !! i); split; intros H; by simplify_eq.
Qed.

(** ** Deck *)

Lemma pop_snoc {A} (l : list A) x : pop (l ++ [x]) = Some (l, x).
Proof. induction l as [|y l IH]; simpl; [done|]. by rewrite IH. Qed.

Lemma pop_nil_or_snoc {A} (l : list A) :
  l = [] ∨ ∃ r y, l = r ++ [y].
Proof.
  induction l as [|x l IH] using rev_ind; [by left|right]. eauto.
Qed.

Lemma deal_card_nil : deal_card [] = (None, []).
Proof. reflexivity. Qed.

Lemma deal_card_snoc rest c : deal_card (rest ++ [c]) = (Some c, rest).
Proof. unfold deal_card. by rewrite pop_snoc. Qed.

Lemma deal_card_Some cards c rest :
  deal_card cards = (Some c, rest) ↔ cards = rest ++ [c].
Proof.
  split; [|intros ->; apply deal_card_snoc].
  destruct (pop_nil_or_snoc cards) as [->|(r & y & ->)].
  - by rewrite deal_card_nil.
  - rewrite deal_card_snoc. by intros [= -> ->].
Qed.

Lemma deal_card_None cards rest :
  deal_card cards = (None, rest) ↔ cards = [] ∧ rest = [].
Proof.
  split; [|by intros [-> ->]].
  destruct (pop_nil_or_snoc cards) as [->|(r & y & ->)].
  - rewrite deal_card_nil. by intros [= <-].
  - by rewrite deal_card_snoc.
Qed.

(** What [deal_cards] takes comes off the end of the list, top first. *)
Lemma deal_cards_spec n cards dealt rest :
  deal_cards n cards = (dealt, rest) →
  cards = rest ++ rev dealt ∧ length dealt = n `min` length cards.
Proof.
  revert cards dealt rest.
  induction n as [|n IH]; intros cards dealt rest; cbn [deal_cards].
  - intros [= <- <-]. by rewrite app_nil_r.
  - destruct (pop_nil_or_snoc cards) as [->|(r & y & ->)].
    + rewrite deal_card_nil. intros [= <- <-]. done.
    + rewrite deal_card_snoc.
      destruct (deal_cards n r) as [dealt' rest'] eqn:Hrec.
      intros [= <- <-]. destruct (IH _ _ _ Hrec) as [-> Hlen].
      split; [simpl; by rewrite <- app_assoc|].
      rewrite !length_app, length_rev in Hlen.
      rewrite !length_app, length_rev.
      change (length (y :: dealt')) with (S (length dealt')).
      change (length [y]) with 1. lia.
Qed.

Lemma deal_cards_length n cards :
  length (fst (deal_cards n cards)) = n `min` length cards
  ∧ length (snd (deal_cards n cards)) = length cards - n.
Proof.
  destruct (deal_cards n cards) as [dealt rest] eqn:H.
  apply deal_cards_spec in H as [-> Hlen]. simpl.
  rewrite length_app, length_rev in Hlen |- *. lia.
Qed.

Arguments deal_cards : simpl never.

(** ** Players *)

Lemma hand_add_cards p cs : hand (add_cards p cs) = hand p ++ cs.
Proof.
  unfold add_cards. revert p. induction cs as [|c cs IH]; intros p; simpl.
  - by rewrite app_nil_r.
  - rewrite IH. simpl. by rewrite <- app_assoc.
Qed.

Lemma has_finished_add_cards p cs :
  has_finished (add_cards p cs) = has_finished p.
Proof.
  unfold add_cards. revert p. induction cs as [|c cs IH]; intros p; simpl;
    [done|]. by rewrite IH.
Qed.

Lemma name_add_cards p cs : name (add_cards p cs) = name p.
Proof.
  unfold add_cards. revert p. induction cs as [|c cs IH]; intros p; simpl;
    [done|]. by rewrite IH.
Qed.

(** A bulk add disqualifies exactly when it adds something and leaves more
    than 20 cards in hand. *)
Lemma is_disqualified_add_cards p cs :
  is_disqualified (add_cards p cs)
  = is_disqualified p
    || (negb (length cs =? 0) && (20 <? length (hand p ++ cs))).
Proof.
  unfold add_cards. revert p. induction cs as [|c cs IH]; intros p; simpl.
  - by rewrite orb_false_r.
  - rewrite IH. simpl. rewrite <- app_assoc. simpl.
    rewrite !length_app. simpl.
    destruct (is_disqualified p), (Nat.ltb_spec 20 (length (hand p) + 1)),
      (Nat.eqb_spec (length cs) 0),
      (Nat.ltb_spec 20 (length (hand p) + S (length cs)));
      simpl; auto; lia.
Qed.

Lemma card_in_true c h : card_in c h = true ↔ c ∈ h.
Proof.
  unfold card_in. rewrite existsb_exists. split.
  - intros (x & Hin & Heq). apply Card_eq_true in Heq as ->.
    by apply list_elem_of_In.
  - intros Hin. exists c. split; [by apply list_elem_of_In|].
    by apply Card_eq_true.
Qed.

(** Removing a card that is in the hand takes out exactly one card. *)
Lemma list_remove_first_in c h :
  card_in c h = true →
  ∃ h', list_remove_first c h = Some h' ∧ length h = S (length h')
        ∧ h ≡ₚ c :: h'.
Proof.
  induction h as [|x h IH]; simpl; [done|].
  destruct (Card_eq x c) eqn:Hx.
  - intros _. apply Card_eq_true in Hx as ->. eauto.
  - simpl. intros Hin. destruct (IH Hin) as (h' & -> & Hlen & Hperm).
    exists (x :: h'). simpl. split; [done|]. split; [lia|].
    rewrite Hperm. apply perm_swap.
Qed.

Lemma remove_card_in p c :
  card_in c (hand p) = true →
  ∃ h', list_remove_first c (hand p) = Some h'
        ∧ remove_card p c
          = (mkPlayer (name p) h' (is_disqualified p) (has_finished p), true)
        ∧ length (hand p) = S (length h').
Proof.
  intros Hin. destruct (list_remove_first_in _ _ Hin) as (h' & Hrm & Hlen & _).
  exists h'. unfold remove_card. by rewrite Hrm.
Qed.

(** ** Seats and turn order *)

Lemma player_at_lt ps i : i < length ps → ∃ p, player_at ps i = Return p ∧ ps !! i = Some p.
Proof.
  intros Hi. apply lookup_lt_is_Some in Hi as [p Hp].
  exists p. split; [|done]. by apply player_at_Return.
Qed.

(** Every seat is met within one lap, whatever the starting point. *)
Lemma lap_covers n c i : i < n → ∃ k, k < n ∧ (c + k) mod n = i.
Proof.
  intros Hi. assert (Hn : n ≠ 0) by lia.
  pose proof (Nat.mod_upper_bound c n Hn) as Hc.
  destruct (le_lt_dec (c mod n) i) as [Hle|Hgt].
  - exists (i - c mod n). split; [lia|].
    rewrite <- Nat.Div0.add_mod_idemp_l.
    replace (c mod n + (i - c mod n)) with i by lia.
    by apply Nat.mod_small.
  - exists (n + i - c mod n). split; [lia|].
    rewrite <- Nat.Div0.add_mod_idemp_l.
    replace (c mod n + (n + i - c mod n)) with (i + 1 * n) by lia.
    rewrite Nat.Div0.mod_add. by apply Nat.mod_small.
Qed.

Lemma next_active_is_lt ps cur j : next_active_is ps cur j → j < length ps.
Proof.
  intros (k & _ & _ & (p & Hp & _) & _). by eapply lookup_lt_Some.
Qed.

(** The first active seat of a lap is unique. *)
Lemma next_active_is_unique ps cur j j' :
  next_active_is ps cur j → next_active_is ps cur j' → j = j'.
Proof.
  intros (k & Hk & -> & (p & Hp & Hact) & Hmin)
         (k' & Hk' & -> & (p' & Hp' & Hact') & Hmin').
  destruct (Nat.lt_trichotomy k k') as [Hlt|[->|Hgt]]; [|done|].
  - rewrite (Hmin' _ _ Hlt Hp) in Hact. done.
  - rewrite (Hmin _ _ Hgt Hp') in Hact'. done.
Qed.

Lemma next_active_is_not_no_active ps cur j :
  next_active_is ps cur j → no_active ps → False.
Proof.
  intros (k & _ & _ & (p & Hp & Hact) & _) Hnone.
  rewrite (Hnone _ _ Hp) in Hact. done.
Qed.

(** Turn order only looks at who is active. *)
Lemma next_active_is_ext ps ps' cur j :
  is_active <$> ps = is_active <$> ps' →
  next_active_is ps cur j → next_active_is ps' cur j.
Proof.
  intros Heq (k & Hk & -> & (p & Hp & Hact) & Hmin).
  assert (Hlen : length ps' = length ps).
  { by rewrite <- (length_fmap is_active ps'), <- Heq, length_fmap. }
  assert (Hsame : ∀ i q', ps' !! i = Some q' →
            ∃ q, ps !! i = Some q ∧ is_active q = is_active q').
  { intros i q' Hq'.
    assert (Hl : (is_active <$> ps) !! i = Some (is_active q'))
      by (by rewrite Heq, list_lookup_fmap, Hq').
    rewrite list_lookup_fmap in Hl.
    destruct (ps !! i) as [q|]; [|done]. exists q. split; [done|].
    by injection Hl. }
  exists k. rewrite Hlen. split; [done|]. split; [done|]. split.
  - assert (Hlt : (cur + 1 + k) mod length ps < length ps')
      by (rewrite Hlen; by eapply lookup_lt_Some).
    apply lookup_lt_is_Some in Hlt as [p' Hp'].
    exists p'. split; [done|].
    destruct (Hsame _ _ Hp') as (q & Hq & <-). congruence.
  - intros k' q' Hk' Hq'.
    destruct (Hsame _ _ Hq') as (q & Hq & <-). eauto.
Qed.

(** Replacing a player by one with the same flags leaves the activity of
    every seat as it was. *)
Lemma is_active_insert (ps : list Player) (i : nat) p p' :
  ps !! i = Some p → is_active p' = is_active p →
  is_active <$> <[i := p']> ps = is_active <$> ps.
Proof.
  intros Hp Hact. rewrite list_fmap_insert, Hact.
  apply list_insert_id. by rewrite list_lookup_fmap, Hp.
Qed.

(** The scan of [_get_next_active_player]. *)
Lemma first_active_from_spec ps start a m :
  0 < length ps →
  ∃ o, first_active_from ps start (seq a m) = Return o ∧
    match o with
    | Some j =>
        ∃ k, a ≤ k < a + m ∧ j = (start + k) mod length ps
             ∧ (∃ p, ps !! j = Some p ∧ is_active p = true)
             ∧ ∀ k' q, a ≤ k' < k →
                 ps !! ((start + k') mod length ps) = Some q →
                 is_active q = false
    | None =>
        ∀ k' q, a ≤ k' < a + m →
          ps !! ((start + k') mod length ps) = Some q → is_active q = false
    end.
Proof.
  intros Hn. revert a. induction m as [|m IH]; intros a; simpl.
  - exists None. split; [done|]. intros k' q Hk'. lia.
  - rewrite pymod_Return by done. simpl.
    destruct (player_at_lt ps ((start + a) mod length ps)) as (p & -> & Hp).
    { apply Nat.mod_upper_bound. lia. }
    simpl. destruct (is_active p) eqn:Hact.
    + exists (Some ((start + a) mod length ps)). split; [done|].
      exists a. split; [lia|]. split; [done|]. split; [eauto|].
      intros k' q Hk'. lia.
    + destruct (IH (S a)) as (o & -> & Ho). exists o. split; [done|].
      destruct o as [j|].
      * destruct Ho as (k & Hk & -> & Hj & Hmin). exists k.
        split; [lia|]. split; [done|]. split; [done|].
        intros k' q Hk' Hq. destruct (decide (k' = a)) as [->|Hne].
        -- congruence.
        -- apply (Hmin k'); [lia|done].
      * intros k' q Hk' Hq. destruct (decide (k' = a)) as [->|Hne].
        -- congruence.
        -- apply (Ho k'); [lia|done].
Qed.

Lemma get_next_active_player_spec g :
  well_formed g →
  ∃ o, _get_next_active_player g = Return o ∧
    match o with
    | Some j => next_active_is (players g) (current_player_index g) j
    | None => no_active (players g)
    end.
Proof.
  unfold well_formed, _get_next_active_player. intros Hwf.
  assert (Hn : 0 < length (players g)) by lia.
  rewrite pymod_Return by done. simpl.
  destruct (first_active_from_spec (players g)
              ((current_player_index g + 1) mod length (players g))
              0 (length (players g)) Hn) as (o & -> & Ho).
  exists o. split; [done|]. destruct o as [j|].
  - destruct Ho as (k & Hk & -> & Hj & Hmin).
    rewrite Nat.Div0.add_mod_idemp_l in Hj |- *.
    exists k. split; [lia|]. split; [done|]. split; [done|].
    intros k' q Hk' Hq. apply (Hmin k'); [lia|].
    by rewrite Nat.Div0.add_mod_idemp_l.
  - intros i p Hp.
    destruct (lap_covers (length (players g)) (current_player_index g + 1) i)
      as (k & Hk & Hki); [by eapply lookup_lt_Some|].
    apply (Ho k); [lia|]. by rewrite Nat.Div0.add_mod_idemp_l, Hki.
Qed.

(** The loop of [_next_player]. *)
Lemma advance_spec ps idx laps :
  idx < length ps →
  ∃ idx' found, advance ps idx laps = Return (idx', found)
    ∧ idx' < length ps
    ∧ if found then
        ∃ k, k < laps ∧ idx' = (idx + 1 + k) mod length ps
             ∧ (∃ p, ps !! idx' = Some p ∧ is_active p = true)
             ∧ ∀ k' q, k' < k →
                 ps !! ((idx + 1 + k') mod length ps) = Some q →
                 is_active q = false
      else
        idx' = (idx + laps) mod length ps
        ∧ ∀ k' q, k' < laps →
            ps !! ((idx + 1 + k') mod length ps) = Some q → is_active q = false.
Proof.
  revert idx. induction laps as [|laps IH]; intros idx Hidx; simpl.
  - exists idx, false. split; [done|]. split; [done|]. split.
    + rewrite Nat.add_0_r. symmetry. by apply Nat.mod_small.
    + intros k' q Hk'. lia.
  - assert (Hn : 0 < length ps) by lia.
    rewrite pymod_Return by done. simpl.
    assert (Hidx1 : (idx + 1) mod length ps < length ps)
      by (apply Nat.mod_upper_bound; lia).
    destruct (player_at_lt ps _ Hidx1) as (p & -> & Hp). simpl.
    destruct (is_active p) eqn:Hact.
    + exists ((idx + 1) mod length ps), true.
      split; [done|]. split; [done|].
      exists 0. rewrite Nat.add_0_r. split; [lia|]. split; [done|].
      split; [eauto|]. intros k' q Hk'. lia.
    + destruct (IH _ Hidx1) as (idx' & found & -> & Hlt & Hres).
      exists idx', found. split; [done|]. split; [done|].
      assert (Hshift : ∀ k, ((idx + 1) mod length ps + 1 + k) mod length ps
                            = (idx + 1 + S k) mod length ps).
      { intros k. rewrite <- Nat.add_assoc, Nat.Div0.add_mod_idemp_l.
        f_equal; lia. }
      destruct found.
      * destruct Hres as (k & Hk & -> & Hj & Hmin).
        exists (S k). split; [lia|]. rewrite Hshift in Hj |- *.
        split; [done|]. split; [done|].
        intros [|k'] q Hk' Hq.
        -- rewrite Nat.add_0_r in Hq. congruence.
        -- apply (Hmin k'); [lia|]. by rewrite Hshift.
      * destruct Hres as (-> & Hmin). split.
        -- rewrite Nat.Div0.add_mod_idemp_l. f_equal; lia.
        -- intros [|k'] q Hk' Hq.
           ++ rewrite Nat.add_0_r in Hq. congruence.
           ++ apply (Hmin k'); [lia|]. by rewrite Hshift.
Qed.

(** ** Frames of the private methods *)

Lemma with_current_player_index_id g :
  with_current_player_index g (current_player_index g) = g.
Proof. by destruct g. Qed.

Lemma check_game_over_frame g :
  players (_check_game_over g) = players g
  ∧ deck (_check_game_over g) = deck g
  ∧ discard_pile (_check_game_over g) = discard_pile g
  ∧ current_player_index (_check_game_over g) = current_player_index g
  ∧ high_card_played_this_round (_check_game_over g)
    = high_card_played_this_round g
  ∧ round_number (_check_game_over g) = round_number g.
Proof.
  unfold _check_game_over.
  destruct (get_winner (players g)); simpl;
    destruct (length (select is_active (players g)) =? 0); done.
Qed.

(** [_check_game_over] never clears the flag. *)
Lemma check_game_over_monotone g :
  game_over g = true → game_over (_check_game_over g) = true.
Proof.
  unfold _check_game_over. intros Hover.
  destruct (get_winner (players g)); simpl;
    destruct (length (select is_active (players g)) =? 0); done.
Qed.

(** [_next_player] on a well-formed game: it returns, touches neither the
    players nor the cards, and either lands on the next active seat or,
    when nobody is active, stays put and finalises the game. *)
Lemma next_player_spec g :
  well_formed g →
  ∃ g', _next_player g = Return g'
    ∧ players g' = players g
    ∧ deck g' = deck g
    ∧ discard_pile g' = discard_pile g
    ∧ well_formed g'
    ∧ ((next_active_is (players g) (current_player_index g)
          (current_player_index g')
        ∧ game_over g' = game_over g
        ∧ winner g' = winner g
        ∧ round_number g'
          = (if current_player_index g' <=? current_player_index g
             then round_number g + 1 else round_number g)
        ∧ high_card_played_this_round g'
          = (if current_player_index g' <=? current_player_index g
             then false else high_card_played_this_round g))
       ∨ (no_active (players g) ∧ g' = _check_game_over g)).
Proof.
  unfold well_formed. intros Hwf. unfold _next_player.
  destruct (advance_spec (players g) (current_player_index g)
              (length (players g)) Hwf) as (idx' & found & -> & Hlt & Hres).
  simpl. destruct found; simpl.
  - destruct Hres as (k & Hk & -> & Hj & Hmin).
    set (j := (current_player_index g + 1 + k) mod length (players g)) in *.
    assert (Hnext : next_active_is (players g) (current_player_index g) j).
    { exists k. done. }
    destruct (j <=? current_player_index g) eqn:Hwrap.
    + eexists. split; [done|]. simpl. rewrite Hwrap.
      repeat split; try done. left. done.
    + eexists. split; [done|]. simpl. rewrite Hwrap.
      repeat split; try done. left. done.
  - destruct Hres as (-> & Hmin).
    assert (Hback : (current_player_index g + length (players g))
                      mod length (players g) = current_player_index g).
    { replace (current_player_index g + length (players g))
        with (current_player_index g + 1 * length (players g)) by lia.
      rewrite Nat.Div0.mod_add. by apply Nat.mod_small. }
    rewrite Hback, with_current_player_index_id.
    destruct (check_game_over_frame g) as (Hp & Hd & Hdp & Hi & _).
    exists (_check_game_over g). split; [done|].
    split; [done|]. split; [done|]. split; [done|]. split.
    + unfold well_formed. by rewrite Hp, Hi.
    + right. split; [|done]. intros i p Hip.
      destruct (lap_covers (length (players g)) (current_player_index g + 1) i)
        as (k & Hk & Hki); [by eapply lookup_lt_Some|].
      apply (Hmin k); [done|]. by rewrite Hki.
Qed.

(** ** The Peak penalty *)

Lemma hand_penalised q dealt : hand (penalised q dealt) = hand q ++ dealt.
Proof.
  unfold penalised. destruct (should_disqualify_player _); simpl;
    apply hand_add_cards.
Qed.

Lemma has_finished_penalised q dealt :
  has_finished (penalised q dealt) = has_finished q.
Proof.
  unfold penalised. destruct (should_disqualify_player _); simpl;
    apply has_finished_add_cards.
Qed.

(** After the penalty the player is disqualified when they were already, or
    when the hand has grown beyond 20 cards. *)
Lemma is_disqualified_penalised q dealt :
  is_disqualified (penalised q dealt)
  = is_disqualified q || (20 <? length (hand q ++ dealt)).
Proof.
  unfold penalised, should_disqualify_player.
  rewrite hand_add_cards.
  destruct (20 <? length (hand q ++ dealt)) eqn:Hbig; simpl.
  - by rewrite orb_true_r.
  - rewrite is_disqualified_add_cards, Hbig. by rewrite andb_false_r.
Qed.

Lemma handle_peak_card_spec g :
  well_formed g →
  (∀ j q, next_active_is (players g) (current_player_index g) j →
     players g !! j = Some q →
     _handle_peak_card g
     = Return (set_player
                 (with_deck g (snd (deal_cards get_peak_card_penalty (deck g))))
                 j
                 (penalised q (fst (deal_cards get_peak_card_penalty (deck g))))))
  ∧ (no_active (players g) → _handle_peak_card g = Return g).
Proof.
  intros Hwf. unfold _handle_peak_card.
  destruct (get_next_active_player_spec g Hwf) as (o & -> & Ho).
  destruct (deal_cards get_peak_card_penalty (deck g)) as [dealt rest].
  simpl. split.
  - intros j q Hnext Hq. destruct o as [j'|].
    + rewrite (next_active_is_unique _ _ _ _ Ho Hnext).
      apply player_at_Return in Hq. rewrite Hq. reflexivity.
    + destruct (next_active_is_not_no_active _ _ _ Hnext Ho).
  - intros Hnone. destruct o as [j'|]; [|done].
    destruct (next_active_is_not_no_active _ _ _ Ho Hnone).
Qed.

(** ** Counting cards *)

Lemma sum_sizes_insert (ps : list Player) (i : nat) p p' :
  ps !! i = Some p →
  sum_list ((λ p, length (hand p)) <$> <[i := p']> ps) + length (hand p)
  = sum_list ((λ p, length (hand p)) <$> ps) + length (hand p').
Proof.
  revert i. induction ps as [|x ps IH]; intros [|i] Hp; simplify_eq/=; [lia|].
  specialize (IH _ Hp). lia.
Qed.

Lemma total_cards_set_player g i p p' :
  players g !! i = Some p →
  total_cards (set_player g i p') + length (hand p)
  = total_cards g + length (hand p').
Proof.
  intros Hp. unfold total_cards, hand_sizes, set_player. simpl.
  pose proof (sum_sizes_insert _ _ _ p' Hp). lia.
Qed.

Lemma set_player_wf g i p : well_formed g → well_formed (set_player g i p).
Proof. unfold well_formed, set_player. simpl. by rewrite length_insert. Qed.

(** ** [play_card] and [draw_card], phase by phase *)

Lemma get_current_player_wf g :
  well_formed g → get_current_player g = Return (current_player_index g).
Proof.
  intros Hwf. unfold get_current_player.
  destruct (player_at_lt _ _ Hwf) as (p & -> & _). done.
Qed.

Lemma get_current_player_Return g cur :
  get_current_player g = Return cur →
  well_formed g ∧ cur = current_player_index g.
Proof.
  unfold get_current_player. intros H.
  apply bind_Return in H as (p & Hp & [= <-]).
  apply player_at_Return in Hp. split; [|done]. by eapply lookup_lt_Some.
Qed.

Lemma play_card_unfold g player card :
  play_card g player card
  = (cur ← get_current_player g;
     if negb (same_player player cur) then mret (false, g) else
     p ← player_at (players g) cur;
     if negb (card_in card (hand p)) then mret (false, g) else
     if negb (can_play_card card (get_last_played_card g)) then mret (false, g)
     else g1 ← peak_phase (discard_phase g cur p card) card;
          finish_phase g1 cur card).
Proof. reflexivity. Qed.

Lemma same_player_true player i : same_player player i = true ↔ player = Seat i.
Proof.
  destruct player as [j|]; simpl; [|done].
  rewrite Nat.eqb_eq. split; [by intros ->|by intros [= ->]].
Qed.

(** A call that passes the three checks runs the three phases. *)
Lemma play_card_accepted g p card :
  players g !! current_player_index g = Some p →
  card_in card (hand p) = true →
  can_play_card card (get_last_played_card g) = true →
  play_card g (Seat (current_player_index g)) card
  = (g1 ← peak_phase (discard_phase g (current_player_index g) p card) card;
     finish_phase g1 (current_player_index g) card).
Proof.
  intros Hp Hin Hplay. rewrite play_card_unfold.
  rewrite get_current_player_wf by (by eapply lookup_lt_Some). simpl.
  rewrite Nat.eqb_refl. simpl.
  apply player_at_Return in Hp. rewrite Hp. simpl.
  by rewrite Hin, Hplay.
Qed.

(** Facts about the state the discard phase leaves. *)
Lemma discard_phase_spec g p card h' :
  players g !! current_player_index g = Some p →
  list_remove_first card (hand p) = Some h' →
  let g1 := discard_phase g (current_player_index g) p card in
  players g1
  = <[current_player_index g
      := mkPlayer (name p) h' (is_disqualified p) (has_finished p)]> (players g)
  ∧ deck g1 = deck g
  ∧ discard_pile g1 = discard_pile g ++ [card]
  ∧ current_player_index g1 = current_player_index g
  ∧ high_card_played_this_round g1
    = high_card_played_this_round g || is_high_value_card card
  ∧ game_over g1 = game_over g
  ∧ winner g1 = winner g
  ∧ round_number g1 = round_number g.
Proof.
  intros Hp Hrm. unfold discard_phase, remove_card. rewrite Hrm. simpl.
  destruct (is_high_value_card card); simpl;
    rewrite ?orb_true_r, ?orb_false_r; done.
Qed.

Lemma discard_phase_total g p card :
  players g !! current_player_index g = Some p →
  card_in card (hand p) = true →
  let g1 := discard_phase g (current_player_index g) p card in
  total_cards g1 = total_cards g ∧ well_formed g1
  ∧ is_active <$> players g1 = is_active <$> players g.
Proof.
  intros Hp Hin g1.
  destruct (list_remove_first_in _ _ Hin) as (h' & Hrm & Hlen & _).
  destruct (discard_phase_spec g p card h' Hp Hrm)
    as (Hps & Hd & Hdp & Hi & _).
  fold g1 in Hps, Hd, Hdp, Hi.
  assert (Hwf : well_formed g) by (by eapply lookup_lt_Some).
  split; [|split].
  - unfold total_cards, hand_sizes. rewrite Hps, Hd, Hdp, length_app. simpl.
    pose proof (sum_sizes_insert _ _ _
      (mkPlayer (name p) h' (is_disqualified p) (has_finished p)) Hp) as Hs.
    simpl in Hs. lia.
  - unfold well_formed. by rewrite Hps, Hi, length_insert.
  - rewrite Hps. by apply is_active_insert with (p := p).
Qed.

(** The three ways the Peak phase can go. *)
Lemma peak_phase_cases g card :
  well_formed g →
  (is_peak_card card = false ∧ peak_phase g card = Return g)
  ∨ (is_peak_card card = true ∧ no_active (players g)
     ∧ peak_phase g card = Return g)
  ∨ (is_peak_card card = true
     ∧ ∃ j q, next_active_is (players g) (current_player_index g) j
         ∧ players g !! j = Some q
         ∧ peak_phase g card
           = Return (set_player
               (with_deck g (snd (deal_cards get_peak_card_penalty (deck g))))
               j
               (penalised q
                  (fst (deal_cards get_peak_card_penalty (deck g)))))).
Proof.
  intros Hwf. unfold peak_phase.
  destruct (is_peak_card card); [|by left]. right.
  destruct (handle_peak_card_spec g Hwf) as [Hsome Hnone].
  destruct (get_next_active_player_spec g Hwf) as ([j|] & _ & Ho).
  - right. split; [done|].
    pose proof Ho as (k & Hk & Hj & (q & Hq & Hact) & Hmin).
    exists j, q. split; [exact Ho|]. split; [done|]. by apply Hsome.
  - left. auto.
Qed.

Lemma peak_phase_total g card :
  well_formed g →
  ∃ g2, peak_phase g card = Return g2
    ∧ total_cards g2 = total_cards g
    ∧ well_formed g2
    ∧ current_player_index g2 = current_player_index g
    ∧ length (players g2) = length (players g).
Proof.
  intros Hwf.
  destruct (peak_phase_cases g card Hwf)
    as [[_ ->]|[(_ & _ & ->)|(_ & j & q & _ & Hq & ->)]];
    [by exists g..|].
  eexists. split; [done|].
  destruct (deal_cards get_peak_card_penalty (deck g)) as [dealt rest] eqn:Hd.
  apply deal_cards_spec in Hd as [Hdeck _]. simpl.
  split; [|split; [by apply set_player_wf|]].
  2:{ split; [done|]. apply length_insert. }
  pose proof (total_cards_set_player (with_deck g rest) j q
                (penalised q dealt) Hq) as Ht.
  rewrite hand_penalised, length_app in Ht.
  assert (total_cards (with_deck g rest) + length dealt = total_cards g).
  { unfold total_cards, hand_sizes. simpl.
    rewrite Hdeck, length_app, length_rev. lia. }
  lia.
Qed.

Lemma has_cards_false p : has_cards p = false ↔ hand p = [].
Proof.
  unfold has_cards. destruct (hand p); simpl; split; intros; done.
Qed.

(** The four ways the finish phase can go; it always reports success. *)
Lemma finish_phase_cases g card p :
  players g !! current_player_index g = Some p →
  ∃ g', finish_phase g (current_player_index g) card = Return (true, g')
    ∧ ((hand p = []
        ∧ can_finish_on_card card (high_card_played_this_round g) = true
        ∧ g' = _check_game_over
                 (set_player g (current_player_index g) (finish_game p)))
       ∨ (hand p = []
          ∧ can_finish_on_card card (high_card_played_this_round g) = false
          ∧ deck g = []
          ∧ _next_player g = Return g')
       ∨ (hand p = []
          ∧ can_finish_on_card card (high_card_played_this_round g) = false
          ∧ ∃ rest c, deck g = rest ++ [c]
              ∧ _next_player
                  (set_player (with_deck g rest) (current_player_index g)
                     (add_card p c)) = Return g')
       ∨ (hand p ≠ [] ∧ _next_player g = Return g')).
Proof.
  intros Hp. assert (Hwf : well_formed g) by (by eapply lookup_lt_Some).
  unfold finish_phase. rewrite (proj2 (player_at_Return _ _ _) Hp). simpl.
  destruct (has_cards p) eqn:Hcards; simpl.
  - destruct (next_player_spec g Hwf) as (g' & -> & _).
    exists g'. split; [done|]. do 3 right. split; [|done].
    intros Hnil. apply has_cards_false in Hnil. congruence.
  - apply has_cards_false in Hcards.
    destruct (can_finish_on_card card (high_card_played_this_round g)).
    + eexists. split; [done|]. left. done.
    + destruct (pop_nil_or_snoc (deck g)) as [Hd|(rest & c & Hd)]; rewrite Hd.
      * rewrite deal_card_nil.
        destruct (next_player_spec g Hwf) as (g' & -> & _).
        exists g'. split; [done|]. right; left. done.
      * rewrite deal_card_snoc.
        destruct (next_player_spec
                    (set_player (with_deck g rest) (current_player_index g)
                       (add_card p c))) as (g' & Hnext & _).
        { by apply set_player_wf. }
        rewrite Hnext. exists g'. split; [done|]. do 2 right; left.
        split; [done|]. split; [done|]. eauto.
Qed.

Lemma finish_phase_total g card :
  well_formed g →
  ∃ g', finish_phase g (current_player_index g) card = Return (true, g')
    ∧ total_cards g' = total_cards g
    ∧ well_formed g'
    ∧ length (players g') = length (players g).
Proof.
  intros Hwf. pose proof Hwf as [p Hp]%lookup_lt_is_Some.
  destruct (finish_phase_cases g card p Hp) as (g' & Hrun & Hcases).
  exists g'. split; [done|].
  destruct Hcases as [(_ & _ & ->)|[(_ & _ & _ & Hnext)
    |[(Hnil & _ & rest & c & Hd & Hnext)|(_ & Hnext)]]].
  - destruct (check_game_over_frame
                (set_player g (current_player_index g) (finish_game p)))
      as (Hps & Hd & Hdp & Hi & _).
    pose proof (total_cards_set_player g _ _ (finish_game p) Hp) as Ht.
    simpl in Ht. unfold total_cards, hand_sizes, well_formed in *.
    rewrite Hps, Hd, Hdp, Hi. simpl. rewrite length_insert.
    split; [|done]. unfold set_player in Ht. simpl in Ht. lia.
  - destruct (next_player_spec g Hwf) as (g'' & Hnext' & Hps & Hd & Hdp & Hwf' & _).
    rewrite Hnext in Hnext'. injection Hnext' as <-.
    unfold total_cards, hand_sizes. by rewrite Hps, Hd, Hdp.
  - destruct (next_player_spec
                (set_player (with_deck g rest) (current_player_index g)
                   (add_card p c)))
      as (g'' & Hnext' & Hps & Hd' & Hdp & Hwf' & _).
    { by apply set_player_wf. }
    rewrite Hnext in Hnext'. injection Hnext' as <-.
    pose proof (total_cards_set_player (with_deck g rest) _ _
                  (add_card p c) Hp) as Ht.
    simpl in Ht. rewrite length_app in Ht. simpl in Ht.
    unfold total_cards, hand_sizes in *. rewrite Hps, Hd', Hdp.
    simpl in *. rewrite length_insert, Hd, length_app. simpl.
    split; [lia|done].
  - destruct (next_player_spec g Hwf) as (g'' & Hnext' & Hps & Hd & Hdp & Hwf' & _).
    rewrite Hnext in Hnext'. injection Hnext' as <-.
    unfold total_cards, hand_sizes. by rewrite Hps, Hd, Hdp.
Qed.

Lemma discard_phase_index g cur p card :
  current_player_index (discard_phase g cur p card) = current_player_index g.
Proof. unfold discard_phase. by destruct (is_high_value_card card). Qed.

(** What a call of [play_card] that returns can have done. *)
Lemma play_card_inv g player card b g' :
  play_card g player card = Return (b, g') →
  (b = false ∧ g' = g)
  ∨ (b = true ∧ player = Seat (current_player_index g)
     ∧ ∃ p g1, players g !! current_player_index g = Some p
         ∧ card_in card (hand p) = true
         ∧ can_play_card card (get_last_played_card g) = true
         ∧ peak_phase (discard_phase g (current_player_index g) p card) card
           = Return g1
         ∧ finish_phase g1 (current_player_index g1) card = Return (true, g')
         ∧ current_player_index g1 = current_player_index g).
Proof.
  rewrite play_card_unfold. intros H.
  apply bind_Return in H as (cur & Hcur & H).
  apply get_current_player_Return in Hcur as [Hwf ->].
  destruct (same_player player (current_player_index g)) eqn:Hsame; simpl in H;
    [|left; by injection H as <- <-].
  apply same_player_true in Hsame as ->.
  apply bind_Return in H as (p & Hp & H). apply player_at_Return in Hp.
  destruct (card_in card (hand p)) eqn:Hin; simpl in H;
    [|left; by injection H as <- <-].
  destruct (can_play_card card (get_last_played_card g)) eqn:Hplay; simpl in H;
    [|left; by injection H as <- <-].
  apply bind_Return in H as (g1 & Hpeak & Hfin). right.
  destruct (discard_phase_total g p card Hp Hin) as (_ & Hwf1 & _).
  destruct (peak_phase_total _ card Hwf1) as (g2 & Hpeak' & _ & Hwf2 & Hi2 & _).
  rewrite Hpeak in Hpeak'. injection Hpeak' as <-.
  rewrite discard_phase_index in Hi2. rewrite <- Hi2 in Hfin.
  destruct (finish_phase_total g1 card Hwf2) as (g'' & Hfin' & _).
  rewrite Hfin in Hfin'. injection Hfin' as -> <-.
  split; [done|]. split; [done|]. exists p, g1. done.
Qed.

(** A call of [play_card] that returns keeps every card in the game. *)
Lemma play_card_total g player card b g' :
  play_card g player card = Return (b, g') →
  well_formed g ∧ total_cards g' = total_cards g ∧ well_formed g'
  ∧ length (players g') = length (players g).
Proof.
  intros H. assert (Hwf : well_formed g).
  { rewrite play_card_unfold in H. apply bind_Return in H as (cur & Hcur & _).
    by apply get_current_player_Return in Hcur as [? _]. }
  split; [done|].
  apply play_card_inv in H
    as [[_ ->]|(_ & _ & p & g1 & Hp & Hin & _ & Hpeak & Hfin & _)]; [done|].
  destruct (discard_phase_total g p card Hp Hin) as (Ht0 & Hwf0 & Hact0).
  destruct (peak_phase_total _ card Hwf0)
    as (g2 & Hpeak' & Ht1 & Hwf1 & _ & Hlen1).
  rewrite Hpeak in Hpeak'. injection Hpeak' as <-.
  destruct (finish_phase_total g1 card Hwf1) as (g'' & Hfin' & Ht & Hwf' & Hlen).
  rewrite Hfin in Hfin'. injection Hfin' as <-.
  rewrite Ht, Ht1, Ht0, Hlen, Hlen1.
  by rewrite <- (length_fmap is_active), Hact0, length_fmap.
Qed.

(** The three ways [draw_card] can go. *)
Lemma draw_card_cases g player :
  well_formed g →
  (same_player player (current_player_index g) = false
   ∧ draw_card g player = Return (false, g))
  ∨ (player = Seat (current_player_index g) ∧ deck g = []
     ∧ draw_card g player = Return (false, g))
  ∨ (player = Seat (current_player_index g)
     ∧ ∃ rest c p g',
         deck g = rest ++ [c]
         ∧ players g !! current_player_index g = Some p
         ∧ _next_player
             (set_player (with_deck g rest) (current_player_index g)
                (penalised p [c])) = Return g'
         ∧ draw_card g player = Return (true, g')).
Proof.
  intros Hwf. unfold draw_card. rewrite get_current_player_wf by done. simpl.
  destruct (same_player player (current_player_index g)) eqn:Hsame; simpl;
    [|by left].
  apply same_player_true in Hsame as ->. right.
  destruct (pop_nil_or_snoc (deck g)) as [Hd|(rest & c & Hd)]; rewrite Hd.
  - left. by rewrite deal_card_nil.
  - right. split; [done|]. rewrite deal_card_snoc.
    pose proof Hwf as [p Hp]%lookup_lt_is_Some.
    rewrite (proj2 (player_at_Return _ _ _) Hp). simpl.
    destruct (next_player_spec
                (set_player (with_deck g rest) (current_player_index g)
                   (penalised p [c]))) as (g' & Hnext & _).
    { by apply set_player_wf. }
    exists rest, c, p, g'. split; [done|]. split; [done|]. split; [done|].
    unfold penalised, add_cards in Hnext. simpl in Hnext. by rewrite Hnext.
Qed.

Lemma draw_card_Return_wf g player r :
  draw_card g player = Return r → well_formed g.
Proof.
  unfold draw_card. intros H. apply bind_Return in H as (cur & Hcur & _).
  by apply get_current_player_Return in Hcur as [? _].
Qed.

(** A call of [draw_card] that returns keeps every card in the game. *)
Lemma draw_card_total g player b g' :
  draw_card g player = Return (b, g') →
  well_formed g ∧ total_cards g' = total_cards g ∧ well_formed g'
  ∧ length (players g') = length (players g).
Proof.
  intros H. pose proof (draw_card_Return_wf _ _ _ H) as Hwf. split; [done|].
  destruct (draw_card_cases g player Hwf)
    as [[_ H']|[(_ & _ & H')|(_ & rest & c & p & g'' & Hd & Hp & Hnext & H')]];
    rewrite H in H'; injection H' as -> ->; [done..|].
  destruct (next_player_spec
              (set_player (with_deck g rest) (current_player_index g)
                 (penalised p [c])))
    as (g''' & Hnext' & Hps & Hd' & Hdp & Hwf' & _).
  { by apply set_player_wf. }
  rewrite Hnext in Hnext'. injection Hnext' as <-.
  pose proof (total_cards_set_player (with_deck g rest) _ _
                (penalised p [c]) Hp) as Ht.
  rewrite hand_penalised, length_app in Ht. simpl in Ht.
  unfold total_cards, hand_sizes in *. rewrite Hps, Hd', Hdp.
  simpl in *. rewrite length_insert, Hd, length_app. simpl.
  split; [lia|done].
Qed.

(** ** Dealing the starting hands *)

Lemma deal_hands_total n ps cards ps' cards' :
  deal_hands n ps cards = (ps', cards') →
  length cards' + sum_list ((λ p, length (hand p)) <$> ps')
  = length cards + sum_list ((λ p, length (hand p)) <$> ps)
  ∧ length ps' = length ps.
Proof.
  revert cards ps' cards'.
  induction ps as [|p ps IH]; intros cards ps' cards'; cbn [deal_hands].
  - by intros [= <- <-].
  - destruct (deal_cards n cards) as [dealt rest] eqn:Hd.
    destruct (deal_hands n ps rest) as [ps'' rest'] eqn:Hrec.
    intros [= <- <-]. destruct (IH _ _ _ Hrec) as [Hsum Hlen].
    apply deal_cards_spec in Hd as [-> _].
    rewrite !fmap_cons. cbn [sum_list sum_list_with length]. unfold id in *.
    rewrite hand_add_cards, !length_app, length_rev. split; lia.
Qed.

Lemma setup_game_total g :
  total_cards (setup_game g) = total_cards g
  ∧ length (players (setup_game g)) = length (players g)
  ∧ current_player_index (setup_game g) = current_player_index g.
Proof.
  unfold setup_game.
  destruct (deal_hands is_valid_starting_hand_size (players g) (deck g))
    as [ps cards] eqn:H.
  apply deal_hands_total in H as [Hsum Hlen].
  unfold total_cards, hand_sizes. simpl. split; [lia|done].
Qed.

(** ** Construction *)

Lemma PeakGame_init_Return shuffle names g :
  PeakGame_init shuffle names = Return g ↔
  length names = 4
  ∧ g = mkGame (Player_init <$> names) (shuffle _create_deck)
              [] 0 false None false 1.
Proof.
  unfold PeakGame_init, get_max_players.
  destruct (Nat.eqb_spec (length names) 4) as [Hlen|Hlen]; simpl; split.
  - by intros [= <-].
  - by intros [_ ->].
  - done.
  - by intros [? _].
Qed.

Lemma fresh_hands_empty (names : list string) :
  sum_list ((λ p, length (hand p)) <$> (Player_init <$> names)) = 0.
Proof. induction names as [|n names IH]; simpl; [done|]. exact IH. Qed.

(** ** Reachable states *)

Lemma reachable_invariant g :
  reachable g →
  total_cards g = 20 ∧ well_formed g ∧ length (players g) = 4.
Proof.
  induction 1 as [shuffle names g Hperm Hinit | g _ IH
                 | g player card b g' _ IH Hplay | g player b g' _ IH Hdraw].
  - apply PeakGame_init_Return in Hinit as [Hlen ->].
    unfold total_cards, hand_sizes, well_formed. simpl.
    rewrite fresh_hands_empty, length_fmap, Hlen.
    apply Permutation_length in Hperm. rewrite Hperm.
    split; [reflexivity|]. split; [lia|done].
  - destruct IH as (Ht & Hwf & Hlen).
    destruct (setup_game_total g) as (Ht' & Hlen' & Hi').
    unfold well_formed in *. rewrite Ht', Hlen', Hi'. done.
  - destruct IH as (Ht & Hwf & Hlen).
    apply play_card_total in Hplay as (_ & Ht' & Hwf' & Hlen').
    rewrite Ht', Hlen'. done.
  - destruct IH as (Ht & Hwf & Hlen).
    apply draw_card_total in Hdraw as (_ & Ht' & Hwf' & Hlen').
    rewrite Ht', Hlen'. done.
Qed.

(** On a reachable game the two moves never raise. *)
Lemma reachable_total_calls g :
  reachable g →
  (∀ player card, ∃ b g', play_card g player card = Return (b, g'))
  ∧ (∀ player, ∃ b g', draw_card g player = Return (b, g')).
Proof.
  intros Hreach. destruct (reachable_invariant g Hreach) as (_ & Hwf & _).
  split.
  - intros player card. rewrite play_card_unfold.
    rewrite get_current_player_wf by done. simpl.
    destruct (same_player player (current_player_index g)); simpl; [|by eauto].
    pose proof Hwf as [p Hp]%lookup_lt_is_Some.
    rewrite (proj2 (player_at_Return _ _ _) Hp). simpl.
    destruct (card_in card (hand p)) eqn:Hin; simpl; [|by eauto].
    destruct (can_play_card card (get_last_played_card g)); simpl; [|by eauto].
    destruct (discard_phase_total g p card Hp Hin) as (_ & Hwf1 & _).
    destruct (peak_phase_total _ card Hwf1) as (g2 & -> & _ & Hwf2 & Hi2 & _).
    simpl. rewrite discard_phase_index in Hi2. rewrite <- Hi2.
    destruct (finish_phase_total g2 card Hwf2) as (g' & -> & _). eauto.
  - intros player.
    destruct (draw_card_cases g player Hwf)
      as [[_ ->]|[(_ & _ & ->)|(_ & rest & c & p & g' & _ & _ & _ & ->)]];
      eauto.
Qed.

Lemma run_reachable g ms g' :
  reachable g → run g ms = Return g' → reachable g'.
Proof.
  revert g. induction ms as [|m ms IH]; intros g Hreach; simpl.
  - by intros [= <-].
  - intros H. apply bind_Return in H as (g1 & Hstep & Hrun).
    apply (IH g1); [|done]. destruct m as [|player card|player]; simpl in Hstep.
    + injection Hstep as <-. by apply reach_setup.
    + apply bind_Return in Hstep as ([b g1'] & Hplay & [= <-]).
      by eapply reach_play.
    + apply bind_Return in Hstep as ([b g1'] & Hdraw & [= <-]).
      by eapply reach_draw.
Qed.

Lemma session_reachable shuffle names ms g :
  shuffle _create_deck ≡ₚ _create_deck →
  session shuffle names ms = Return g → reachable g.
Proof.
  intros Hperm H. unfold session in H.
  apply bind_Return in H as (g0 & Hinit & Hrun).
  eapply run_reachable; [|done]. by eapply reach_init.
Qed.

(** C4. In every state reachable from construction through [setup_game],
    [play_card] and [draw_card], the deck, the four hands and the discard
    pile hold 20 cards together; and each of the three operations, from any
    state in which it returns, leaves that total as it found it. *)
Theorem conservation :
  (∀ g, reachable g → total_cards g = 20)
  ∧ (∀ g, total_cards (setup_game g) = total_cards g)
  ∧ (∀ g player card b g',
       play_card g player card = Return (b, g') →
       total_cards g' = total_cards g)
  ∧ (∀ g player b g',
       draw_card g player = Return (b, g') →
       total_cards g' = total_cards g).
Proof.
  repeat apply conj.
  - intros g Hreach. by apply reachable_invariant.
  - intros g. apply setup_game_total.
  - intros g player card b g' H. by apply play_card_total in H as (_ & ? & _).
  - intros g player b g' H. by apply draw_card_total in H as (_ & ? & _).
Qed.

(** ** Rejected moves *)

(** C7. A [play_card] call by somebody other than the current player, with a
    card that is not in the hand, or with a card the discard top does not
    admit, and a [draw_card] call by somebody other than the current player
    or on an empty deck, returns [False] and hands back the game exactly as
    it was; and whenever either call returns [False] the game is as it
    was. *)
Theorem rejected_moves_change_nothing (g : PeakGame) :
  well_formed g →
  (∀ player card,
     same_player player (current_player_index g) = false →
     play_card g player card = Return (false, g))
  ∧ (∀ p card,
       players g !! current_player_index g = Some p →
       card_in card (hand p) = false →
       play_card g (Seat (current_player_index g)) card = Return (false, g))
  ∧ (∀ card,
       can_play_card card (get_last_played_card g) = false →
       play_card g (Seat (current_player_index g)) card = Return (false, g))
  ∧ (∀ player,
       same_player player (current_player_index g) = false →
       draw_card g player = Return (false, g))
  ∧ (deck g = [] → ∀ player, draw_card g player = Return (false, g))
  ∧ (∀ player card g',
       play_card g player card = Return (false, g') → g' = g)
  ∧ (∀ player g', draw_card g player = Return (false, g') → g' = g).
Proof.
  intros Hwf. repeat apply conj.
  - intros player card Hother. rewrite play_card_unfold.
    rewrite get_current_player_wf by done. simpl. by rewrite Hother.
  - intros p card Hp Hin. rewrite play_card_unfold.
    rewrite get_current_player_wf by done. simpl. rewrite Nat.eqb_refl. simpl.
    rewrite (proj2 (player_at_Return _ _ _) Hp). simpl. by rewrite Hin.
  - intros card Hplay. rewrite play_card_unfold.
    rewrite get_current_player_wf by done. simpl. rewrite Nat.eqb_refl. simpl.
    pose proof Hwf as [p Hp]%lookup_lt_is_Some.
    rewrite (proj2 (player_at_Return _ _ _) Hp). simpl. rewrite Hplay.
    by destruct (card_in card (hand p)).
  - intros player Hother. unfold draw_card.
    rewrite get_current_player_wf by done. simpl. by rewrite Hother.
  - intros Hempty player. unfold draw_card.
    rewrite get_current_player_wf by done. simpl.
    rewrite Hempty, deal_card_nil.
    by destruct (same_player player (current_player_index g)).
  - intros player card g' H.
    apply play_card_inv in H as [[_ ->]|[? _]]; done.
  - intros player g' H.
    destruct (draw_card_cases g player Hwf)
      as [[_ H']|[(_ & _ & H')|(_ & rest & c & p & g'' & _ & _ & _ & H')]];
      rewrite H in H'; by simplify_eq.
Qed.

(** ** Construction *)

(** C6, as the constructor has it.  [PeakGame.__init__] looks at the number
    of names only: a list of exactly four names, whatever they are, gives a
    game whose players carry these names in order, with empty hands and no
    flags set; any other list raises [ValueError]. *)
Theorem construction_checks_the_count shuffle (names : list string) :
  (length names = 4 →
     ∃ g, PeakGame_init shuffle names = Return g
          ∧ name <$> players g = names
          ∧ (∀ i p, players g !! i = Some p →
               hand p = [] ∧ is_disqualified p = false ∧ has_finished p = false)
          ∧ deck g = shuffle _create_deck
          ∧ discard_pile g = []
          ∧ current_player_index g = 0
          ∧ game_over g = false
          ∧ winner g = None
          ∧ round_number g = 1)
  ∧ (length names ≠ 4 → PeakGame_init shuffle names = Raise ValueError).
Proof.
  split.
  - intros Hlen. eexists. split; [by apply PeakGame_init_Return|]. simpl.
    split; [|split; [|done]].
    + rewrite <- list_fmap_compose. apply list_fmap_id.
    + intros i p Hp. rewrite list_lookup_fmap in Hp.
      destruct (names !! i); simplify_eq/=. done.
  - intros Hlen. unfold PeakGame_init, get_max_players.
    by destruct (Nat.eqb_spec (length names) 4).
Qed.

(** C6 fails as stated: a roster with a repeated name and an empty name is
    accepted. *)
Lemma construction_accepts_repeated_and_empty_names :
  let names := ["Ann"; "Ann"; ""; "Ann"]%string in
  ¬ NoDup names ∧ ""%string ∈ names
  ∧ ∃ g, PeakGame_init unshuffled names = Return g.
Proof.
  split; [|split].
  - intros Hnd. inversion Hnd as [|x l Hnotin _]. apply Hnotin. by left.
  - do 2 right. left.
  - eexists. reflexivity.
Qed.

(** ** The starting deal *)

(** C9. On a freshly constructed game [setup_game] asks for seven cards for
    each player in list order and the 20-card deck gives 7, 7, 6 and 0: the
    first player gets the top seven cards, the second the next seven, the
    third the last six, the fourth nothing, and the deck is left empty. *)
Theorem setup_deals_7_7_6_0 shuffle names g :
  shuffle _create_deck ≡ₚ _create_deck →
  PeakGame_init shuffle names = Return g →
  hand_sizes (setup_game g) = [7; 7; 6; 0]
  ∧ sum_list (hand_sizes (setup_game g)) = 20
  ∧ deck (setup_game g) = []
  ∧ ∃ h0 h1 h2,
      hand <$> players (setup_game g) = [h0; h1; h2; []]
      ∧ shuffle _create_deck = rev h2 ++ rev h1 ++ rev h0.
Proof.
  intros Hperm Hinit. apply Permutation_length in Hperm.
  change (length _create_deck) with 20 in Hperm.
  apply PeakGame_init_Return in Hinit as [Hlen ->].
  destruct names as [|a [|b [|c [|d [|e names]]]]]; try done.
  unfold setup_game, hand_sizes, is_valid_starting_hand_size. simpl.
  destruct (deal_cards 7 (shuffle _create_deck)) as [h0 r1] eqn:H0.
  destruct (deal_cards 7 r1) as [h1 r2] eqn:H1.
  destruct (deal_cards 7 r2) as [h2 r3] eqn:H2.
  destruct (deal_cards 7 r3) as [h3 r4] eqn:H3.
  apply deal_cards_spec in H0 as [E0 L0], H1 as [E1 L1], H2 as [E2 L2],
    H3 as [E3 L3].
  rewrite E0 in Hperm, L0. subst r1 r2 r3.
  repeat match goal with
         | H : context [length (_ ++ _)] |- _ => rewrite length_app in H
         | H : context [length (rev _)] |- _ => rewrite length_rev in H
         end.
  assert (length h0 = 7 ∧ length h1 = 7 ∧ length h2 = 6
          ∧ length h3 = 0 ∧ length r4 = 0) as (K0 & K1 & K2 & K3 & K4) by lia.
  apply nil_length_inv in K3, K4. subst h3 r4. simpl.
  rewrite !hand_add_cards. simpl. rewrite K0, K1, K2.
  split; [done|]. split; [done|]. split; [done|].
  exists h0, h1, h2. split; [done|]. rewrite E0. simpl.
  by rewrite <- app_assoc.
Qed.

(** ** The game-over flag *)

(** None of the methods behind [play_card] and [draw_card] reads
    [game_over]: started with the flag set, each does what it does with the
    flag clear, and the flag is still set at the end. *)
Lemma check_game_over_flag g :
  _check_game_over (with_game_over g true)
  = with_game_over (_check_game_over g) true.
Proof.
  unfold _check_game_over. simpl.
  destruct (get_winner (players g)); simpl;
    destruct (length (select is_active (players g)) =? 0); reflexivity.
Qed.

Lemma next_player_flag g :
  _next_player (with_game_over g true)
  = (g' ← _next_player g; mret (with_game_over g' true)).
Proof.
  unfold _next_player. simpl.
  destruct (advance (players g) (current_player_index g) (length (players g)))
    as [[idx found]|e]; simpl; [|done].
  destruct found; simpl.
  - destruct (idx <=? current_player_index g); reflexivity.
  - f_equal.
    exact (check_game_over_flag (with_current_player_index g idx)).
Qed.

Lemma handle_peak_card_flag g :
  _handle_peak_card (with_game_over g true)
  = (g' ← _handle_peak_card g; mret (with_game_over g' true)).
Proof.
  unfold _handle_peak_card, _get_next_active_player. simpl.
  destruct (pymod (current_player_index g + 1) (length (players g)))
    as [start|e]; simpl; [|done].
  destruct (first_active_from (players g) start (seq 0 (length (players g))))
    as [[j|]|e]; simpl; [|done..].
  destruct (deal_cards get_peak_card_penalty (deck g)) as [dealt rest].
  destruct (player_at (players g) j) as [q|e]; simpl; done.
Qed.

Lemma finish_phase_flag g cur card :
  finish_phase (with_game_over g true) cur card
  = ('(b, g') ← finish_phase g cur card; mret (b, with_game_over g' true)).
Proof.
  unfold finish_phase. simpl.
  destruct (player_at (players g) cur) as [p|e]; simpl; [|done].
  destruct (has_cards p); simpl.
  - rewrite next_player_flag. by destruct (_next_player g).
  - destruct (can_finish_on_card card (high_card_played_this_round g)).
    + simpl. do 2 f_equal.
      exact (check_game_over_flag (set_player g cur (finish_game p))).
    + destruct (deal_card (deck g)) as [[c|] rest].
      * change (set_player (with_deck (with_game_over g true) rest) cur
                  (add_card p c))
          with (with_game_over
                  (set_player (with_deck g rest) cur (add_card p c)) true).
        rewrite next_player_flag.
        by destruct (_next_player
                       (set_player (with_deck g rest) cur (add_card p c))).
      * rewrite next_player_flag. by destruct (_next_player g).
Qed.

Lemma discard_phase_flag g cur p card :
  discard_phase (with_game_over g true) cur p card
  = with_game_over (discard_phase g cur p card) true.
Proof. unfold discard_phase. by destruct (is_high_value_card card). Qed.

Lemma peak_phase_flag g card :
  peak_phase (with_game_over g true) card
  = (g' ← peak_phase g card; mret (with_game_over g' true)).
Proof.
  unfold peak_phase. destruct (is_peak_card card); [|done].
  apply handle_peak_card_flag.
Qed.

Arguments discard_phase : simpl never.
Arguments peak_phase : simpl never.
Arguments finish_phase : simpl never.
Arguments get_last_played_card : simpl never.

Lemma play_card_flag g player card :
  play_card (with_game_over g true) player card
  = ('(b, g') ← play_card g player card; mret (b, with_game_over g' true)).
Proof.
  rewrite !play_card_unfold.
  change (get_current_player (with_game_over g true))
    with (get_current_player g).
  destruct (get_current_player g) as [cur|e]; simpl; [|done].
  destruct (same_player player cur); simpl; [|done].
  destruct (player_at (players g) cur) as [p|e]; simpl; [|done].
  destruct (card_in card (hand p)); simpl; [|done].
  change (get_last_played_card (with_game_over g true))
    with (get_last_played_card g).
  destruct (can_play_card card (get_last_played_card g)); simpl; [|done].
  rewrite discard_phase_flag, peak_phase_flag.
  destruct (peak_phase (discard_phase g cur p card) card) as [g1|e]; simpl;
    [|done].
  apply finish_phase_flag.
Qed.

Lemma draw_card_flag g player :
  draw_card (with_game_over g true) player
  = ('(b, g') ← draw_card g player; mret (b, with_game_over g' true)).
Proof.
  unfold draw_card.
  change (get_current_player (with_game_over g true))
    with (get_current_player g).
  destruct (get_current_player g) as [cur|e]; simpl; [|done].
  destruct (same_player player cur); simpl; [|done].
  destruct (deal_card (deck g)) as [[c|] rest]; [|done].
  destruct (player_at (players g) cur) as [p|e]; simpl; [|done].
  match goal with
  | |- context [_next_player (set_player (with_deck (with_game_over g true) rest) cur ?q)] =>
      change (set_player (with_deck (with_game_over g true) rest) cur q)
        with (with_game_over (set_player (with_deck g rest) cur q) true);
      rewrite next_player_flag;
      by destruct (_next_player (set_player (with_deck g rest) cur q))
  end.
Qed.

Lemma with_game_over_false_true g :
  game_over g = true → with_game_over (with_game_over g false) true = g.
Proof. destruct g. simpl. by intros ->. Qed.

(** C5, as the two methods have it.  Neither [play_card] nor [draw_card]
    looks at [game_over]: on a finished game each call returns what it
    returns, and changes what it changes, on the same game with the flag
    clear, and the flag stays set; it is the driver's loop that stops
    calling them. *)
Theorem moves_ignore_game_over (g : PeakGame) :
  game_over g = true →
  (∀ player card,
     play_card g player card
     = ('(b, g') ← play_card (with_game_over g false) player card;
        mret (b, with_game_over g' true)))
  ∧ (∀ player,
       draw_card g player
       = ('(b, g') ← draw_card (with_game_over g false) player;
          mret (b, with_game_over g' true)))
  ∧ (∀ player card b g',
       play_card g player card = Return (b, g') → game_over g' = true)
  ∧ (∀ player b g',
       draw_card g player = Return (b, g') → game_over g' = true).
Proof.
  intros Hover. pose proof (with_game_over_false_true g Hover) as Hg.
  assert (Hplay : ∀ player card,
    play_card g player card
    = ('(b, g') ← play_card (with_game_over g false) player card;
       mret (b, with_game_over g' true))).
  { intros player card. rewrite <- Hg at 1. apply play_card_flag. }
  assert (Hdraw : ∀ player,
    draw_card g player
    = ('(b, g') ← draw_card (with_game_over g false) player;
       mret (b, with_game_over g' true))).
  { intros player. rewrite <- Hg at 1. apply draw_card_flag. }
  repeat apply conj; [done|done| |].
  - intros player card b g' H. rewrite Hplay in H.
    apply bind_Return in H as ([b0 g0] & _ & [= _ <-]). done.
  - intros player b g' H. rewrite Hdraw in H.
    apply bind_Return in H as ([b0 g0] & _ & [= _ <-]). done.
Qed.

(** C5 fails as stated: once the first player has gone out and the game is
    over, that player can still draw, and the draw takes the top card of the
    deck into their hand and passes the turn. *)
Lemma finished_game_still_moves :
  ∃ g g',
    session stacked roster first_finish = Return g
    ∧ reachable g
    ∧ game_over g = true
    ∧ draw_card g (Seat 0) = Return (true, g')
    ∧ length (deck g) = 16 ∧ length (deck g') = 15
    ∧ hand_size g 0 = 0 ∧ hand_size g' 0 = 1
    ∧ current_player_index g = 0 ∧ current_player_index g' = 1.
Proof.
  eexists _, _. split; [vm_compute; reflexivity|].
  split; [|vm_compute; repeat split; reflexivity].
  eapply (session_reachable stacked roster first_finish).
  - apply (bool_decide_unpack (stacked _create_deck ≡ₚ _create_deck)).
    vm_compute. exact I.
  - vm_compute. reflexivity.
Qed.

(** ** The end of a play, seat by seat *)

Lemma next_player_Return g g' :
  well_formed g → _next_player g = Return g' →
  players g' = players g ∧ deck g' = deck g
  ∧ discard_pile g' = discard_pile g
  ∧ ((next_active_is (players g') (current_player_index g)
        (current_player_index g')
      ∧ game_over g' = game_over g)
     ∨ (no_active (players g')
        ∧ current_player_index g' = current_player_index g
        ∧ game_over g' = true)).
Proof.
  intros Hwf Hrun.
  destruct (next_player_spec g Hwf)
    as (g'' & Hrun' & Hps & Hd & Hdp & _ & Hturn).
  rewrite Hrun in Hrun'. injection Hrun' as <-.
  split; [done|]. split; [done|]. split; [done|]. rewrite Hps.
  destruct Hturn as [(Hnext & Hover & _)|[Hnone ->]]; [by left|right].
  split; [done|].
  destruct (check_game_over_frame g) as (_ & _ & _ & Hi & _).
  split; [done|].
  unfold _check_game_over.
  assert (Hsel : select is_active (players g) = []) by (by apply select_nil).
  destruct (get_winner (players g)); simpl; by rewrite Hsel.
Qed.

Lemma can_finish_on_peak card high :
  is_peak_card card = true → can_finish_on_card card high = false.
Proof. intros Hpeak. unfold can_finish_on_card. by rewrite Hpeak. Qed.

Lemma can_play_peak card last_played :
  is_peak_card card = true → can_play_card card last_played = true.
Proof. intros Hpeak. unfold can_play_card. by rewrite Hpeak. Qed.

(** A finish that is refused: the player keeps the flags, takes the top
    card of the deck if there is one, and the turn moves on. *)
Lemma finish_phase_refused g card p :
  players g !! current_player_index g = Some p →
  hand p = [] →
  can_finish_on_card card (high_card_played_this_round g) = false →
  ∃ g' p',
    finish_phase g (current_player_index g) card = Return (true, g')
    ∧ players g' !! current_player_index g = Some p'
    ∧ has_finished p' = has_finished p
    ∧ is_disqualified p' = is_disqualified p
    ∧ discard_pile g' = discard_pile g
    ∧ (deck g = [] → hand p' = [] ∧ deck g' = [])
    ∧ (∀ rest c, deck g = rest ++ [c] → hand p' = [c] ∧ deck g' = rest)
    ∧ (∀ j, j ≠ current_player_index g → players g' !! j = players g !! j)
    ∧ ((next_active_is (players g') (current_player_index g)
          (current_player_index g')
        ∧ game_over g' = game_over g)
       ∨ (no_active (players g')
          ∧ current_player_index g' = current_player_index g
          ∧ game_over g' = true)).
Proof.
  intros Hp Hnil Hno.
  assert (Hwf : well_formed g) by (by eapply lookup_lt_Some).
  destruct (finish_phase_cases g card p Hp) as (g' & Hrun & Hcases).
  destruct Hcases as [(_ & Hyes & _)|[(_ & _ & Hd & Hnext)
    |[(_ & _ & rest & c & Hd & Hnext)|(Hcards & _)]]]; [congruence| | |done].
  - apply next_player_Return in Hnext as (Hps & Hd' & Hdp & Hturn); [|done].
    exists g', p. rewrite Hps, Hd', Hdp, Hd.
    repeat apply conj; try done.
    + intros rest c Habs. by destruct rest.
    + by rewrite <- Hps.
  - apply next_player_Return in Hnext as (Hps & Hd' & Hdp & Hturn);
      [|by apply set_player_wf].
    simpl in Hps, Hd', Hdp, Hturn.
    exists g', (add_card p c). rewrite Hps, Hd', Hdp, Hd.
    repeat apply conj; try done.
    + by apply list_lookup_insert_eq.
    + simpl. by rewrite Hnil.
    + intros Habs. by destruct rest.
    + intros rest0 c0 Heq. apply app_inj_tail in Heq as [-> ->].
      simpl. by rewrite Hnil.
    + intros j Hj. by apply list_lookup_insert_ne.
    + by rewrite <- Hps.
Qed.

(** When the finish phase finds cards in the hand, or nothing to draw, no
    player changes. *)
Lemma finish_phase_players g card p g' :
  players g !! current_player_index g = Some p →
  can_finish_on_card card (high_card_played_this_round g) = false →
  hand p ≠ [] ∨ deck g = [] →
  finish_phase g (current_player_index g) card = Return (true, g') →
  players g' = players g.
Proof.
  intros Hp Hno Hor Hrun.
  assert (Hwf : well_formed g) by (by eapply lookup_lt_Some).
  destruct (finish_phase_cases g card p Hp) as (g'' & Hrun' & Hcases).
  rewrite Hrun in Hrun'. injection Hrun' as <-.
  destruct Hcases as [(_ & Hyes & _)|[(_ & _ & Hd & Hnext)
    |[(Hnil & _ & rest & c & Hd & Hnext)|(Hcards & Hnext)]]]; [congruence| | |].
  - by apply next_player_Return in Hnext as (Hps & _).
  - destruct Hor as [Hcards|Hempty]; [done|].
    rewrite Hempty in Hd. by destruct rest.
  - by apply next_player_Return in Hnext as (Hps & _).
Qed.

(** The finish phase leaves the other seats alone. *)
Lemma finish_phase_other_seats g card g' j :
  well_formed g →
  can_finish_on_card card (high_card_played_this_round g) = false →
  finish_phase g (current_player_index g) card = Return (true, g') →
  j ≠ current_player_index g →
  players g' !! j = players g !! j.
Proof.
  intros Hwf Hno Hrun Hj. pose proof Hwf as [p Hp]%lookup_lt_is_Some.
  destruct (finish_phase_cases g card p Hp) as (g'' & Hrun' & Hcases).
  rewrite Hrun in Hrun'. injection Hrun' as <-.
  destruct Hcases as [(_ & Hyes & _)|[(_ & _ & Hd & Hnext)
    |[(Hnil & _ & rest & c & Hd & Hnext)|(Hcards & Hnext)]]]; [congruence| | |].
  - apply next_player_Return in Hnext as (-> & _); done.
  - apply next_player_Return in Hnext as (-> & _); [|by apply set_player_wf].
    simpl. by apply list_lookup_insert_ne.
  - apply next_player_Return in Hnext as (-> & _); done.
Qed.

(** ** Playing a Peak card *)

(** C8, as [deal_cards] has it.  When the current player plays a Peak card
    from their hand, the first active player found from the next seat on,
    wrapping around, is dealt the top cards of the deck, five of them when
    the deck holds at least five and all that is left otherwise; these are
    added to that player's hand, and at the end of the same call that player
    is disqualified exactly when the hand holds more than 20 cards. *)
Theorem peak_card_penalty (g : PeakGame) (p : Player) (card : Card) (j : nat) :
  players g !! current_player_index g = Some p →
  card_in card (hand p) = true →
  card_type card = PEAK →
  next_active_is (players g) (current_player_index g) j →
  ∃ g' q',
    play_card g (Seat (current_player_index g)) card = Return (true, g')
    ∧ players g' !! j = Some q'
    ∧ length (fst (deal_cards get_peak_card_penalty (deck g)))
      = 5 `min` length (deck g)
    ∧ deck g = snd (deal_cards get_peak_card_penalty (deck g))
               ++ rev (fst (deal_cards get_peak_card_penalty (deck g)))
    ∧ (j ≠ current_player_index g →
       ∀ q, players g !! j = Some q →
         hand q' = hand q ++ fst (deal_cards get_peak_card_penalty (deck g)))
    ∧ (j = current_player_index g →
       ∀ h', list_remove_first card (hand p) = Some h' →
         hand q' = h' ++ fst (deal_cards get_peak_card_penalty (deck g)))
    ∧ (is_disqualified q' = true ↔ 20 < length (hand q')).
Proof.
  intros Hp Hin Hpeak%is_peak_card_true Hnext.
  destruct (list_remove_first_in _ _ Hin) as (h' & Hrm & _ & _).
  destruct (discard_phase_spec g p card h' Hp Hrm)
    as (Hps1 & Hd1 & _ & Hi1 & _).
  destruct (discard_phase_total g p card Hp Hin) as (_ & Hwf1 & Hact1).
  rewrite (play_card_accepted g p card Hp Hin (can_play_peak _ _ Hpeak)).
  set (g1 := discard_phase g (current_player_index g) p card) in *.
  assert (Hnext1 : next_active_is (players g1) (current_player_index g1) j).
  { rewrite Hi1. eapply next_active_is_ext; [symmetry; exact Hact1|done]. }
  pose proof Hnext1 as (k & _ & _ & (q1 & Hq1 & Hq1act) & _).
  destruct (handle_peak_card_spec g1 Hwf1) as [Hsome _].
  specialize (Hsome j q1 Hnext1 Hq1). rewrite Hd1 in Hsome.
  destruct (deal_cards get_peak_card_penalty (deck g)) as [dealt rest] eqn:Hdeal.
  apply deal_cards_spec in Hdeal as [Hdeck Hlen].
  simpl in Hsome |- *.
  unfold peak_phase. rewrite Hpeak, Hsome. simpl.
  set (g2 := set_player (with_deck g1 rest) j (penalised q1 dealt)) in *.
  assert (Hi2 : current_player_index g2 = current_player_index g) by exact Hi1.
  assert (Hwf2 : well_formed g2) by (by apply set_player_wf).
  assert (Hj2 : players g2 !! j = Some (penalised q1 dealt)).
  { apply list_lookup_insert_eq. by eapply lookup_lt_Some. }
  assert (Hno : can_finish_on_card card (high_card_played_this_round g2) = false)
    by (by apply can_finish_on_peak).
  destruct (finish_phase_total g2 card Hwf2) as (g' & Hfin & _).
  rewrite Hi2 in Hfin. rewrite Hfin.
  exists g', (penalised q1 dealt).
  assert (Hq1not : is_disqualified q1 = false).
  { unfold is_active in Hq1act. by destruct (is_disqualified q1). }
  repeat apply conj; try done.
  - assert (Hfin2 : finish_phase g2 (current_player_index g2) card
                    = Return (true, g')) by (by rewrite Hi2).
    destruct (decide (j = current_player_index g)) as [Heq|Hne].
    + assert (Hp2 : players g2 !! current_player_index g2
                    = Some (penalised q1 dealt)) by (by rewrite Hi2, <- Heq).
      rewrite (finish_phase_players g2 card _ g' Hp2 Hno); [done| |done].
      rewrite hand_penalised.
      destruct (hand q1 ++ dealt) as [|x l] eqn:Hhand; [right|by left].
      apply app_eq_nil in Hhand as [_ ->]. simpl in Hlen, Hdeck.
      rewrite app_nil_r in Hdeck. simpl.
      destruct (deck g); [by rewrite <- Hdeck|simpl in Hlen; lia].
    + assert (Hne2 : j ≠ current_player_index g2) by (by rewrite Hi2).
      by rewrite (finish_phase_other_seats g2 card g' j Hwf2 Hno Hfin2 Hne2).
  - intros Hne q Hq. rewrite hand_penalised. f_equal.
    rewrite Hps1, list_lookup_insert_ne in Hq1 by done. congruence.
  - intros -> h'' Hrm'. rewrite hand_penalised. f_equal.
    rewrite Hps1, list_lookup_insert_eq in Hq1 by (by eapply lookup_lt_Some).
    injection Hq1 as <-. simpl. congruence.
  - rewrite is_disqualified_penalised, hand_penalised, Hq1not. simpl.
    apply Nat.ltb_lt.
  - rewrite is_disqualified_penalised, hand_penalised, Hq1not. simpl.
    apply Nat.ltb_lt.
Qed.

(** C8 fails as stated: after [setup_game] the deck is empty, so the Peak
    card the first player plays gives the second player, the next active
    one, no card at all; and with four cards left the Peak card gives
    four. *)
Lemma peak_penalty_is_capped_by_the_deck :
  (∃ g g',
     session unshuffled roster [Setup] = Return g
     ∧ reachable g
     ∧ current_player_index g = 0
     ∧ next_active_is (players g) 0 1
     ∧ length (deck g) = 0
     ∧ play_card g (Seat 0) Peak = Return (true, g')
     ∧ hand_size g 1 = 7 ∧ hand_size g' 1 = 7)
  ∧ (∃ g g',
       session thin roster down_to_four = Return g
       ∧ reachable g
       ∧ current_player_index g = 0
       ∧ next_active_is (players g) 0 1
       ∧ length (deck g) = 4
       ∧ play_card g (Seat 0) Peak = Return (true, g')
       ∧ hand_size g 1 = 2 ∧ hand_size g' 1 = 6).
Proof.
  split.
  - eexists _, _. split; [vm_compute; reflexivity|]. split.
    { eapply (session_reachable unshuffled roster [Setup]); [done|].
      vm_compute. reflexivity. }
    split; [reflexivity|]. split.
    { exists 0. split; [simpl; lia|]. split; [reflexivity|].
      split; [eexists; split; reflexivity|]. intros k' q Hk'. lia. }
    vm_compute. repeat split; reflexivity.
  - eexists _, _. split; [vm_compute; reflexivity|]. split.
    { eapply (session_reachable thin roster down_to_four).
      - apply (bool_decide_unpack (thin _create_deck ≡ₚ _create_deck)).
        vm_compute. exact I.
      - vm_compute. reflexivity. }
    split; [reflexivity|]. split.
    { exists 0. split; [simpl; lia|]. split; [reflexivity|].
      split; [eexists; split; reflexivity|]. intros k' q Hk'. lia. }
    vm_compute. repeat split; reflexivity.
Qed.

(** ** A finish attempt that is refused *)

Lemma no_active_ext ps ps' :
  is_active <$> ps = is_active <$> ps' → no_active ps → no_active ps'.
Proof.
  intros Heq Hnone i p' Hp'.
  assert (Hl : (is_active <$> ps) !! i = Some (is_active p'))
    by (by rewrite Heq, list_lookup_fmap, Hp').
  rewrite list_lookup_fmap in Hl.
  destruct (ps !! i) as [p|] eqn:Hp; [|done].
  injection Hl as <-. by apply (Hnone i).
Qed.

Lemma existsb_is_active_false ps :
  existsb is_active ps = false ↔ no_active ps.
Proof.
  induction ps as [|p ps IH]; simpl.
  - split; [|done]. by intros _ i q.
  - rewrite orb_false_iff, IH. split.
    + intros [Hp Hnone] [|i] q; simpl; [by intros [= <-]|apply Hnone].
    + intros Hnone. split; [by apply (Hnone 0)|].
      intros i q Hq. by apply (Hnone (S i)).
Qed.

Lemma card_in_singleton card : card_in card [card] = true.
Proof. apply card_in_true. by left. Qed.

Lemma list_remove_first_singleton card :
  list_remove_first card [card] = Some [].
Proof.
  simpl. by rewrite (proj2 (Card_eq_true card card) eq_refl).
Qed.

(** C10, as the Peak penalty allows.  The current player plays their last
    card, the play is legal and [can_finish_on_card] refuses the card; when
    the card is a Peak, the Peak penalty does not fall on the acting player
    themself.  Then [play_card] returns [True], the card is on top of the
    discard pile, the player is not marked finished, and the player's hand
    is the top card of the deck as the Peak penalty, if there was one, has
    left it, or empty when nothing is left; and the turn moves to the next
    active seat, or, when nobody is active, the game is declared over. *)
Theorem refused_finish_still_succeeds (g : PeakGame) (p : Player) (card : Card) :
  players g !! current_player_index g = Some p →
  hand p = [card] →
  can_play_card card (get_last_played_card g) = true →
  can_finish_on_card card
    (high_card_played_this_round g || is_high_value_card card) = false →
  (card_type card = PEAK →
   ¬ next_active_is (players g) (current_player_index g)
       (current_player_index g)) →
  let deck_left :=
    if is_peak_card card && existsb is_active (players g)
    then snd (deal_cards get_peak_card_penalty (deck g))
    else deck g in
  ∃ g' p',
    play_card g (Seat (current_player_index g)) card = Return (true, g')
    ∧ discard_pile g' = discard_pile g ++ [card]
    ∧ players g' !! current_player_index g = Some p'
    ∧ has_finished p' = has_finished p
    ∧ is_disqualified p' = is_disqualified p
    ∧ (deck_left = [] → hand p' = [] ∧ deck g' = [])
    ∧ (∀ rest c, deck_left = rest ++ [c] → hand p' = [c] ∧ deck g' = rest)
    ∧ ((next_active_is (players g') (current_player_index g)
          (current_player_index g')
        ∧ game_over g' = game_over g)
       ∨ (no_active (players g')
          ∧ current_player_index g' = current_player_index g
          ∧ game_over g' = true)).
Proof.
  intros Hp Hhand Hplay Hno Hnotself deck_left.
  assert (Hin : card_in card (hand p) = true)
    by (rewrite Hhand; apply card_in_singleton).
  assert (Hrm : list_remove_first card (hand p) = Some [])
    by (rewrite Hhand; apply list_remove_first_singleton).
  destruct (discard_phase_spec g p card [] Hp Hrm)
    as (Hps1 & Hd1 & Hdp1 & Hi1 & Hh1 & Hgo1 & _).
  destruct (discard_phase_total g p card Hp Hin) as (_ & Hwf1 & Hact1).
  rewrite (play_card_accepted g p card Hp Hin Hplay).
  set (g1 := discard_phase g (current_player_index g) p card) in *.
  set (p1 := mkPlayer (name p) [] (is_disqualified p) (has_finished p)) in *.
  assert (Hp1 : players g1 !! current_player_index g = Some p1).
  { rewrite Hps1. apply list_lookup_insert_eq. by eapply lookup_lt_Some. }
  assert (Hmid : ∃ gm,
    peak_phase g1 card = Return gm
    ∧ current_player_index gm = current_player_index g
    ∧ players gm !! current_player_index g = Some p1
    ∧ discard_pile gm = discard_pile g1
    ∧ deck gm = deck_left
    ∧ game_over gm = game_over g
    ∧ can_finish_on_card card (high_card_played_this_round gm) = false).
  { subst deck_left.
    destruct (peak_phase_cases g1 card Hwf1)
      as [[Hreg Hrun]|[(Hpeak & Hnone & Hrun)
                      |(Hpeak & j & q1 & Hnext & Hq1 & Hrun)]].
    - exists g1. rewrite Hreg. simpl. rewrite Hh1. done.
    - exists g1. rewrite Hpeak. simpl.
      apply (no_active_ext _ (players g)) in Hnone; [|done].
      apply existsb_is_active_false in Hnone. rewrite Hnone, Hh1. done.
    - rewrite Hi1 in Hnext.
      apply (next_active_is_ext _ (players g)) in Hnext; [|done].
      assert (Hj : j ≠ current_player_index g).
      { intros ->. apply Hnotself; [|done]. by apply is_peak_card_true. }
      assert (Hsome : existsb is_active (players g) = true).
      { destruct (existsb is_active (players g)) eqn:Hex; [done|].
        apply existsb_is_active_false in Hex.
        destruct (next_active_is_not_no_active _ _ _ Hnext Hex). }
      eexists. split; [exact Hrun|]. rewrite Hpeak, Hsome, Hd1. simpl.
      repeat apply conj; try done.
      + by rewrite list_lookup_insert_ne.
      + by apply can_finish_on_peak. }
  destruct Hmid as (gm & -> & Him & Hpm & Hdpm & Hdm & Hgom & Hnom). simpl.
  rewrite <- Him in Hpm.
  destruct (finish_phase_refused gm card p1 Hpm eq_refl Hnom)
    as (g' & p' & Hfin & Hp' & Hfin' & Hdis' & Hdp' & Hempty & Htop & _ & Hturn).
  rewrite Him in Hfin, Hp', Hturn. rewrite Hdm in Hempty, Htop.
  rewrite Hgom in Hturn.
  exists g', p'. rewrite Hfin, Hdp', Hdpm, Hdp1. done.
Qed.

(** C10 fails as stated, twice over.  With four cards left to draw, the
    first player plays their last card, a Peak: the four cards go to the
    next player and the acting player, whose finish is refused, is dealt
    nothing.  And once three players have gone out, the fourth plays their
    last card, a Peak, with thirteen cards left to draw: being the only
    active player they take the five Peak penalty cards themself, and no
    single penalty card. *)
Lemma refused_finish_is_not_always_one_card :
  (∃ g p g',
     session thin roster down_to_four = Return g
     ∧ reachable g
     ∧ game_over g = false
     ∧ players g !! current_player_index g = Some p
     ∧ current_player_index g = 0
     ∧ hand p = [Peak]
     ∧ can_play_card Peak (get_last_played_card g) = true
     ∧ can_finish_on_card Peak
         (high_card_played_this_round g || is_high_value_card Peak) = false
     ∧ length (deck g) = 4
     ∧ play_card g (Seat 0) Peak = Return (true, g')
     ∧ hand_size g' 0 = 0)
  ∧ (∃ g p g',
       session stacked roster last_one_standing = Return g
       ∧ reachable g
       ∧ players g !! current_player_index g = Some p
       ∧ current_player_index g = 3
       ∧ hand p = [Peak]
       ∧ can_play_card Peak (get_last_played_card g) = true
       ∧ can_finish_on_card Peak
           (high_card_played_this_round g || is_high_value_card Peak) = false
       ∧ length (deck g) = 13
       ∧ play_card g (Seat 3) Peak = Return (true, g')
       ∧ hand_size g' 3 = 5
       ∧ length (deck g') = 8).
Proof.
  split.
  - eexists _, _, _. split; [vm_compute; reflexivity|]. split.
    { eapply (session_reachable thin roster down_to_four).
      - apply (bool_decide_unpack (thin _create_deck ≡ₚ _create_deck)).
        vm_compute. exact I.
      - vm_compute. reflexivity. }
    split; [reflexivity|]. split; [reflexivity|].
    vm_compute. repeat split; reflexivity.
  - eexists _, _, _. split; [vm_compute; reflexivity|]. split.
    { eapply (session_reachable stacked roster last_one_standing).
      - apply (bool_decide_unpack (stacked _create_deck ≡ₚ _create_deck)).
        vm_compute. exact I.
      - vm_compute. reflexivity. }
    split; [reflexivity|].
    vm_compute. repeat split; reflexivity.
Qed.

(** ** The statements at concrete games *)

(** C3 read on three players of whom the first has finished. *)
Lemma get_winner_spec_witness :
  get_winner [mkPlayer "a" [] false true; mkPlayer "b" [] false false;
              mkPlayer "c" [] false false] = Some 0.
Proof.
  apply (proj1 (proj2 (proj2
           (get_winner_spec [mkPlayer "a" [] false true;
                             mkPlayer "b" [] false false;
                             mkPlayer "c" [] false false])))
         1 2 (mkPlayer "b" [] false false) (mkPlayer "c" [] false false)
         0 (mkPlayer "a" [] false true)).
  - lia.
  - reflexivity.
  - reflexivity.
  - reflexivity.
  - reflexivity.
  - reflexivity.
  - reflexivity.
  - intros k' r' Hk'. lia.
Defined.

(** C4 read on the game as dealt from the deck as built. *)
Lemma conservation_witness :
  ∃ g, session unshuffled roster [Setup] = Return g ∧ total_cards g = 20.
Proof.
  eexists. split; [vm_compute; reflexivity|].
  apply (proj1 conservation).
  apply (session_reachable unshuffled roster [Setup]).
  - apply Permutation_refl.
  - vm_compute. reflexivity.
Defined.

(** C5 read on the game the first finish has ended. *)
Lemma moves_ignore_game_over_witness :
  ∃ g, session stacked roster first_finish = Return g
       ∧ game_over g = true
       ∧ ∀ player b g', draw_card g player = Return (b, g') →
           game_over g' = true.
Proof.
  eexists. split; [vm_compute; reflexivity|]. split; [reflexivity|].
  match goal with
  | |- ∀ player b g', draw_card ?g _ = _ → _ =>
      apply (proj2 (proj2 (proj2 (moves_ignore_game_over g eq_refl))))
  end.
Defined.

(** C6 read on a roster of four. *)
Lemma construction_checks_the_count_witness :
  ∃ g, PeakGame_init unshuffled roster = Return g
       ∧ name <$> players g = roster.
Proof.
  destruct (proj1 (construction_checks_the_count unshuffled roster) eq_refl)
    as (g & Hinit & Hnames & _).
  exists g. split; [exact Hinit|exact Hnames].
Defined.

(** C7 read on the game as dealt: the deck is empty and a draw fails. *)
Lemma rejected_moves_change_nothing_witness :
  ∃ g, session unshuffled roster [Setup] = Return g
       ∧ deck g = []
       ∧ draw_card g (Seat 0) = Return (false, g).
Proof.
  eexists. split; [vm_compute; reflexivity|]. split; [reflexivity|].
  match goal with
  | |- draw_card ?g _ = _ =>
      apply (proj1 (proj2 (proj2 (proj2 (proj2
               (rejected_moves_change_nothing g ltac:(vm_compute; lia)))))))
  end.
  reflexivity.
Defined.

(** C8 read on the game as dealt: the first player plays a Peak card. *)
Lemma peak_card_penalty_witness :
  ∃ g, session unshuffled roster [Setup] = Return g
       ∧ ∃ g' q', play_card g (Seat 0) Peak = Return (true, g')
           ∧ players g' !! 1 = Some q'
           ∧ (is_disqualified q' = true ↔ 20 < length (hand q')).
Proof.
  eexists. split; [vm_compute; reflexivity|].
  match goal with
  | |- ∃ g' q', play_card ?g _ _ = _ ∧ _ =>
      destruct (peak_card_penalty g
                  (mkPlayer "Alice" (replicate 7 Peak) false false) Peak 1)
        as (g' & q' & Hrun & Hq' & _ & _ & _ & _ & Hdis)
  end.
  - reflexivity.
  - reflexivity.
  - reflexivity.
  - exists 0. split; [simpl; lia|]. split; [reflexivity|].
    split; [eexists; split; reflexivity|]. intros k' q Hk'. lia.
  - exists g', q'. split; [exact Hrun|]. split; [exact Hq'|exact Hdis].
Defined.

(** C9 read on the roster of four and the deck as built. *)
Lemma setup_deals_7_7_6_0_witness :
  ∃ g, PeakGame_init unshuffled roster = Return g
       ∧ hand_sizes (setup_game g) = [7; 7; 6; 0]
       ∧ deck (setup_game g) = [].
Proof.
  eexists. split; [reflexivity|].
  match goal with
  | |- hand_sizes (setup_game ?g) = _ ∧ _ =>
      destruct (setup_deals_7_7_6_0 unshuffled roster g
                  (Permutation_refl _) eq_refl) as (Hsizes & _ & Hdeck & _)
  end.
  split; [exact Hsizes|exact Hdeck].
Defined.

(** C10 read on the four-card deck: the first player plays their last card,
    a Peak, and the second player is the one the penalty falls on. *)
Lemma refused_finish_still_succeeds_witness :
  ∃ g, session thin roster down_to_four = Return g
       ∧ ∃ g', play_card g (Seat 0) Peak = Return (true, g')
           ∧ discard_pile g' = discard_pile g ++ [Peak].
Proof.
  eexists. split; [vm_compute; reflexivity|].
  match goal with
  | |- ∃ g', play_card ?g _ _ = _ ∧ _ =>
      destruct (refused_finish_still_succeeds g
                  (mkPlayer "Alice" [Peak] false false) Peak)
        as (g' & p' & Hrun & Hpile & _)
  end.
  - reflexivity.
  - reflexivity.
  - reflexivity.
  - reflexivity.
  - intros _ Hself.
    destruct Hself as (k & Hk & Hj & _ & Hmin).
    simpl in Hk, Hj, Hmin.
    destruct k as [|k]; [discriminate Hj|].
    specialize (Hmin 0 _ ltac:(lia) eq_refl). discriminate Hmin.
  - exists g'. split; [exact Hrun|exact Hpile].
Defined.

(** * Further properties of the deck, the players and the rules *)

(** ** Dealing *)

Lemma deal_cards_S n cards :
  deal_cards (S n) cards
  = match deal_card cards with
    | (Some c, rest) =>
        let '(dealt, rest') := deal_cards n rest in (c :: dealt, rest')
    | (None, _) => ([], cards)
    end.
Proof. reflexivity. Qed.

Lemma deal_cards_0 cards : deal_cards 0 cards = ([], cards).
Proof. reflexivity. Qed.

(** X1. [deal_cards] in closed form: asked for [n] cards it hands out the
    last [n] cards of the list, the last one first, and leaves the rest in
    place; asked for more than there are, it hands out the whole deck
    reversed and leaves it empty. *)
Theorem deal_cards_closed_form (n : nat) (cards : list Card) :
  deal_cards n cards
  = (rev (drop (length cards - n) cards), take (length cards - n) cards)
  ∧ (length cards ≤ n → deal_cards n cards = (rev cards, []))
  ∧ cards_remaining (snd (deal_cards n cards)) = cards_remaining cards - n.
Proof.
  destruct (deal_cards n cards) as [dealt rest] eqn:H.
  apply deal_cards_spec in H as [Hcards Hlen].
  assert (Hrest : length cards - n = length rest).
  { rewrite Hcards, length_app, length_rev in Hlen |- *. lia. }
  assert (Hform : (dealt, rest)
    = (rev (drop (length cards - n) cards), take (length cards - n) cards)).
  { rewrite Hrest. subst cards.
    by rewrite drop_app_length, take_app_length, rev_involutive. }
  split; [done|]. split.
  - intros Hle. rewrite Hform.
    replace (length cards - n) with 0 by lia. by rewrite drop_0.
  - unfold cards_remaining. simpl. lia.
Qed.

(** X2. Dealing [m] cards and then [n] more gives what dealing [m + n] at
    once gives: the two hands one after the other, and the same deck. *)
Theorem deal_cards_add (m n : nat) (cards : list Card) :
  deal_cards (m + n) cards
  = (fst (deal_cards m cards) ++ fst (deal_cards n (snd (deal_cards m cards))),
     snd (deal_cards n (snd (deal_cards m cards)))).
Proof.
  revert cards. induction m as [|m IH]; intros cards.
  - rewrite deal_cards_0. simpl. by destruct (deal_cards n cards).
  - change (S m + n) with (S (m + n)). rewrite !deal_cards_S.
    destruct (pop_nil_or_snoc cards) as [->|(r & y & ->)].
    + rewrite deal_card_nil. simpl.
      destruct n as [|n]; [by rewrite deal_cards_0|].
      by rewrite deal_cards_S, deal_card_nil.
    + rewrite deal_card_snoc, IH.
      destruct (deal_cards m r) as [d1 r1]. simpl.
      by destruct (deal_cards n r1).
Qed.

(** ** Hands *)

(** X3. [add_cards] keeps the cards in order at the end of the hand, leaves
    [has_finished] alone, and leaves the player disqualified exactly when
    they were already, or when it added at least one card and the hand then
    holds more than 20; an empty bulk add never disqualifies.  On a fresh
    player the flag is therefore set exactly from the 21st card on. *)
Theorem add_cards_threshold (p : Player) (cs : list Card) :
  hand (add_cards p cs) = hand p ++ cs
  ∧ name (add_cards p cs) = name p
  ∧ has_finished (add_cards p cs) = has_finished p
  ∧ (is_disqualified (add_cards p cs) = true
     ↔ is_disqualified p = true
       ∨ (cs ≠ [] ∧ 20 < length (hand p) + length cs))
  ∧ (∀ n, is_disqualified (add_cards (Player_init n) cs) = true
          ↔ 21 ≤ length cs).
Proof.
  assert (Hgen : ∀ q, is_disqualified (add_cards q cs) = true
     ↔ is_disqualified q = true
       ∨ (cs ≠ [] ∧ 20 < length (hand q) + length cs)).
  { intros q. rewrite is_disqualified_add_cards, length_app.
    rewrite orb_true_iff, andb_true_iff, negb_true_iff, Nat.eqb_neq,
      Nat.ltb_lt.
    split; (intros [?|[Hne ?]]; [by left|right; split; [|done]]).
    - intros ->. done.
    - by destruct cs. }
  split; [apply hand_add_cards|]. split; [apply name_add_cards|].
  split; [apply has_finished_add_cards|]. split; [apply Hgen|].
  intros n. rewrite Hgen. simpl. split.
  - intros [?|[_ ?]]; [done|lia].
  - intros Hlen. right. split; [|lia]. intros ->. simpl in Hlen. lia.
Qed.

Lemma remove_card_miss (p : Player) (c : Card) :
  c ∉ hand p → remove_card p c = (p, false).
Proof.
  assert (Hmiss : ∀ h, c ∉ h → list_remove_first c h = None).
  { induction h as [|x h IH]; intros Hnot; simpl; [done|].
    apply not_elem_of_cons in Hnot as [Hne Hnot].
    destruct (Card_eq x c) eqn:Hx; [apply Card_eq_true in Hx; congruence|].
    by rewrite IH. }
  intros Hnot. unfold remove_card. by rewrite Hmiss.
Qed.

Lemma remove_card_hit (p : Player) (c : Card) before after :
  hand p = before ++ c :: after → c ∉ before →
  remove_card p c
  = (mkPlayer (name p) (before ++ after)
       (is_disqualified p) (has_finished p), true).
Proof.
  assert (Hhit : ∀ before after, c ∉ before →
            list_remove_first c (before ++ c :: after) = Some (before ++ after)).
  { clear before after.
    induction before as [|x before IH]; intros after Hnot; simpl.
    - by rewrite (proj2 (Card_eq_true c c) eq_refl).
    - apply not_elem_of_cons in Hnot as [Hne Hnot].
      destruct (Card_eq x c) eqn:Hx; [apply Card_eq_true in Hx; congruence|].
      by rewrite IH. }
  intros Hhand Hnot. unfold remove_card. by rewrite Hhand, Hhit.
Qed.

(** X4. [remove_card] on a card that is not in the hand returns [False] and
    changes nothing; otherwise it returns [True], takes out the first card
    equal to the one given and no other, and touches neither the name nor
    the flags. *)
Theorem remove_card_first_occurrence (p : Player) (c : Card) :
  (c ∉ hand p → remove_card p c = (p, false))
  ∧ (∀ before after,
       hand p = before ++ c :: after → c ∉ before →
       remove_card p c
       = (mkPlayer (name p) (before ++ after)
            (is_disqualified p) (has_finished p), true)).
Proof.
  split.
  - apply remove_card_miss.
  - intros before after. apply remove_card_hit.
Qed.


(** X6. [get_peak_cards] and [get_regular_cards] split the hand in two:
    each card of the hand is in exactly one of them, the first holds only
    Peak cards, the second only regular ones, and together they are the
    hand up to order. *)
Theorem peak_and_regular_cards_split_the_hand (p : Player) :
  hand p ≡ₚ get_peak_cards p ++ get_regular_cards p
  ∧ length (get_peak_cards p) + length (get_regular_cards p)
    = length (hand p)
  ∧ (∀ c, c ∈ get_peak_cards p ↔ c ∈ hand p ∧ card_type c = PEAK)
  ∧ (∀ c, c ∈ get_regular_cards p ↔ c ∈ hand p ∧ card_type c = REGULAR).
Proof.
  unfold get_peak_cards, get_regular_cards.
  assert (Hperm : ∀ h, h ≡ₚ List.filter is_peak_card h
                          ++ List.filter (λ card, negb (is_peak_card card)) h).
  { induction h as [|x h IH]; simpl; [done|].
    destruct (is_peak_card x); simpl.
    - by rewrite <- IH.
    - rewrite <- Permutation_middle. by rewrite <- IH. }
  split; [apply Hperm|]. split.
  - rewrite <- length_app. symmetry. apply Permutation_length, Hperm.
  - split; intros c; rewrite !list_elem_of_In, filter_In.
    + by rewrite is_peak_card_true.
    + by rewrite negb_true_iff, is_peak_card_false.
Qed.

(** X7. The card's own finish test is the rule engine's test with the round
    flag taken as set: the two agree once a high card has been played, and
    whatever the round flag the rule never allows a finish the card's own
    test refuses. *)
Theorem can_finish_on_is_the_rule_with_the_flag_set (c : Card) (high : bool) :
  can_finish_on c = can_finish_on_card c true
  ∧ (can_finish_on_card c high = true → can_finish_on c = true).
Proof.
  unfold can_finish_on, can_finish_on_card.
  destruct (is_peak_card c); [done|].
  destruct ((1 <=? value c) && (value c <=? 4))%Z; [done|].
  destruct ((5 <=? value c) && (value c <=? 6))%Z; [done|].
  destruct ((8 <=? value c) && (value c <=? 10))%Z; [done|].
  by destruct (value c =? 7)%Z.
Qed.

(** * Further properties of the game *)

(** ** What a call can do to the player objects *)

Lemma discard_phase_players g cur p card :
  players (discard_phase g cur p card)
  = <[cur := fst (remove_card p card)]> (players g).
Proof. unfold discard_phase. by destruct (is_high_value_card card). Qed.

Lemma deal_hands_nil n ps :
  deal_hands n ps [] = (ps, []).
Proof.
  induction ps as [|p ps IH]; simpl; [done|].
  destruct n as [|n]; [rewrite deal_cards_0|rewrite deal_cards_S, deal_card_nil];
    by rewrite IH.
Qed.

Section PlayerSteps.
(** A relation between a player object before and after, kept by each of
    the four [Player] methods the game calls. *)
Variable R : Player → Player → Prop.
Hypothesis R_refl : ∀ p, R p p.
Hypothesis R_trans : ∀ p q r, R p q → R q r → R p r.
Hypothesis R_add_card : ∀ p c, R p (add_card p c).
Hypothesis R_remove_card : ∀ p c, R p (fst (remove_card p c)).
Hypothesis R_disqualify : ∀ p, R p (disqualify p).
Hypothesis R_finish_game : ∀ p, R p (finish_game p).

Lemma steps_add_cards p cs : R p (add_cards p cs).
Proof.
  unfold add_cards. revert p. induction cs as [|c cs IH]; intros p; simpl.
  - apply R_refl.
  - eapply R_trans; [apply (R_add_card p c)|apply IH].
Qed.

Lemma steps_penalised p cs : R p (penalised p cs).
Proof.
  unfold penalised. destruct (should_disqualify_player _).
  - eapply R_trans; [apply steps_add_cards|apply R_disqualify].
  - apply steps_add_cards.
Qed.

Lemma steps_same (ps : list Player) : Forall2 R ps ps.
Proof. induction ps; constructor; auto. Qed.

Lemma steps_trans (ps qs rs : list Player) :
  Forall2 R ps qs → Forall2 R qs rs → Forall2 R ps rs.
Proof.
  intros H. revert rs. induction H as [|p q ps qs Hpq _ IH]; intros rs Hqr.
  - by inversion Hqr.
  - inversion Hqr as [|q' r qs' rs' Hr Hrs]; subst.
    constructor; [by eapply R_trans|by apply IH].
Qed.

Lemma steps_insert (ps : list Player) (i : nat) p p' :
  ps !! i = Some p → R p p' → Forall2 R ps (<[i := p']> ps).
Proof.
  revert i. induction ps as [|x ps IH]; intros [|i] Hp Hr; simplify_eq/=.
  - constructor; [done|apply steps_same].
  - constructor; [apply R_refl|by apply IH].
Qed.

Lemma steps_deal_hands n ps cards :
  Forall2 R ps (fst (deal_hands n ps cards)).
Proof.
  revert cards. induction ps as [|p ps IH]; intros cards; simpl; [constructor|].
  destruct (deal_cards n cards) as [dealt rest].
  specialize (IH rest). destruct (deal_hands n ps rest) as [ps' rest'].
  simpl in *. constructor; [apply steps_add_cards|done].
Qed.

Lemma steps_setup_game g : Forall2 R (players g) (players (setup_game g)).
Proof.
  unfold setup_game.
  pose proof (steps_deal_hands is_valid_starting_hand_size (players g) (deck g))
    as H.
  by destruct (deal_hands is_valid_starting_hand_size (players g) (deck g)).
Qed.

Lemma steps_next_player g g' :
  well_formed g → _next_player g = Return g' →
  Forall2 R (players g) (players g').
Proof.
  intros Hwf H. apply next_player_Return in H as (-> & _); [|done].
  apply steps_same.
Qed.

Lemma steps_finish_phase g card g' :
  well_formed g →
  finish_phase g (current_player_index g) card = Return (true, g') →
  Forall2 R (players g) (players g').
Proof.
  intros Hwf Hrun. pose proof Hwf as [p Hp]%lookup_lt_is_Some.
  destruct (finish_phase_cases g card p Hp) as (g'' & Hrun' & Hcases).
  rewrite Hrun in Hrun'. injection Hrun' as <-.
  destruct Hcases as [(_ & _ & ->)|[(_ & _ & _ & Hnext)
    |[(_ & _ & rest & c & _ & Hnext)|(_ & Hnext)]]].
  - destruct (check_game_over_frame
                (set_player g (current_player_index g) (finish_game p)))
      as (-> & _).
    simpl. by apply steps_insert with (p := p).
  - by apply steps_next_player.
  - apply steps_next_player in Hnext; [|by apply set_player_wf].
    eapply steps_trans; [|exact Hnext]. simpl.
    by apply steps_insert with (p := p).
  - by apply steps_next_player.
Qed.

Lemma steps_play_card g player card b g' :
  play_card g player card = Return (b, g') →
  Forall2 R (players g) (players g').
Proof.
  intros H. apply play_card_inv in H
    as [[_ ->]|(_ & _ & p & g1 & Hp & Hin & _ & Hpeak & Hfin & _)];
    [apply steps_same|].
  destruct (discard_phase_total g p card Hp Hin) as (_ & Hwf0 & _).
  assert (H0 : Forall2 R (players g)
                 (players (discard_phase g (current_player_index g) p card))).
  { rewrite discard_phase_players. by apply steps_insert with (p := p). }
  destruct (peak_phase_total _ card Hwf0) as (g2 & Hpeak' & _ & Hwf1 & _).
  rewrite Hpeak in Hpeak'. injection Hpeak' as <-.
  assert (H1 : Forall2 R
            (players (discard_phase g (current_player_index g) p card))
            (players g1)).
  { destruct (peak_phase_cases _ card Hwf0)
      as [[_ Hrun]|[(_ & _ & Hrun)|(_ & j & q & _ & Hq & Hrun)]];
      rewrite Hpeak in Hrun; injection Hrun as ->; [apply steps_same..|].
    simpl. apply steps_insert with (p := q); [done|apply steps_penalised]. }
  eapply steps_trans; [exact H0|]. eapply steps_trans; [exact H1|].
  by eapply steps_finish_phase.
Qed.

Lemma steps_draw_card g player b g' :
  draw_card g player = Return (b, g') →
  Forall2 R (players g) (players g').
Proof.
  intros H. pose proof (draw_card_Return_wf _ _ _ H) as Hwf.
  destruct (draw_card_cases g player Hwf)
    as [[_ H']|[(_ & _ & H')|(_ & rest & c & p & g'' & _ & Hp & Hnext & H')]];
    rewrite H in H'; injection H' as -> ->; [apply steps_same..|].
  apply steps_next_player in Hnext; [|by apply set_player_wf].
  eapply steps_trans; [|exact Hnext]. simpl.
  apply steps_insert with (p := p); [done|apply steps_penalised].
Qed.

Lemma steps_run g ms g' :
  run g ms = Return g' → Forall2 R (players g) (players g').
Proof.
  revert g. induction ms as [|m ms IH]; intros g; simpl.
  - intros [= <-]. apply steps_same.
  - intros H. apply bind_Return in H as (g1 & Hstep & Hrun).
    eapply steps_trans; [|by apply IH].
    destruct m as [|player card|player]; simpl in Hstep.
    + injection Hstep as <-. apply steps_setup_game.
    + apply bind_Return in Hstep as ([b g1'] & Hplay & [= <-]).
      by eapply steps_play_card.
    + apply bind_Return in Hstep as ([b g1'] & Hdraw & [= <-]).
      by eapply steps_draw_card.
Qed.
End PlayerSteps.

Lemma grows_from_refl p : grows_from p p.
Proof. by unfold grows_from. Qed.

Lemma grows_from_trans p q r : grows_from p q → grows_from q r → grows_from p r.
Proof.
  unfold grows_from. intros (Hn & Hd & Hf) (Hn' & Hd' & Hf').
  split; [congruence|]. split; auto.
Qed.

Lemma grows_from_add_card p c : grows_from p (add_card p c).
Proof.
  unfold grows_from. simpl. split; [done|]. split; [|done].
  intros ->. by destruct (20 <? length (hand p ++ [c])).
Qed.

Lemma grows_from_remove_card p c : grows_from p (fst (remove_card p c)).
Proof.
  unfold remove_card. destruct (list_remove_first c (hand p)); simpl;
    by unfold grows_from.
Qed.

Lemma grows_from_disqualify p : grows_from p (disqualify p).
Proof. by unfold grows_from. Qed.

Lemma grows_from_finish_game p : grows_from p (finish_game p).
Proof. by unfold grows_from. Qed.

(** X8. Over any sequence of [setup_game], [play_card] and [draw_card]
    calls the list of players keeps its length, every player keeps their
    name and seat, and a player who is disqualified, or has finished, stays
    so: the two flags are never cleared. *)
Theorem flags_are_never_cleared (g : PeakGame) (ms : list Move) (g' : PeakGame) :
  run g ms = Return g' →
  length (players g') = length (players g)
  ∧ ∀ i p, players g !! i = Some p →
      ∃ p', players g' !! i = Some p'
            ∧ name p' = name p
            ∧ (is_disqualified p = true → is_disqualified p' = true)
            ∧ (has_finished p = true → has_finished p' = true).
Proof.
  intros Hrun.
  assert (H : Forall2 grows_from (players g) (players g')).
  { apply (steps_run grows_from grows_from_refl grows_from_trans
             grows_from_add_card grows_from_remove_card
             grows_from_disqualify grows_from_finish_game) with (ms := ms).
    done. }
  split; [symmetry; by eapply Forall2_length|].
  intros i p Hp. destruct (Forall2_lookup_l _ _ _ _ _ H Hp) as (p' & Hp' & Hg).
  exists p'. split; [done|]. exact Hg.
Qed.

Lemma within_limit_violations ps :
  (∀ i p, ps !! i = Some p → within_limit p) →
  disqualification_violations ps = [].
Proof.
  induction ps as [|p ps IH]; intros Hall; simpl; [done|].
  rewrite IH by (intros i q Hq; by apply (Hall (S i))).
  pose proof (Hall 0 p eq_refl) as Hp. unfold within_limit in Hp.
  destruct (should_disqualify_player p); [|by rewrite andb_false_r].
  by rewrite Hp.
Qed.

(** X9. If no player holds more than 20 cards without being disqualified,
    this is still so after any sequence of [setup_game], [play_card] and
    [draw_card] calls, the penalty card of a refused finish included; on
    such a game [validate_game_state] never reports a player who should be
    disqualified, and reports nothing at all exactly when two or more
    players are active. *)
Theorem nobody_over_the_limit_goes_unnoticed
    (g : PeakGame) (ms : list Move) (g' : PeakGame) :
  (∀ i p, players g !! i = Some p → within_limit p) →
  run g ms = Return g' →
  (∀ i p', players g' !! i = Some p' → within_limit p')
  ∧ disqualification_violations (players g') = []
  ∧ (validate_game_state (players g') = []
     ↔ 2 ≤ length (select is_active (players g'))).
Proof.
  intros Hall Hrun.
  assert (H : Forall2 (λ p p', within_limit p → within_limit p')
                (players g) (players g')).
  { apply (steps_run (λ p p', within_limit p → within_limit p'))
      with (ms := ms); [by auto|by auto| | |by auto|by auto|done].
    - intros p c _. unfold within_limit, should_disqualify_player. simpl.
      by intros ->.
    - intros p c. unfold remove_card.
      destruct (list_remove_first c (hand p)) as [h'|] eqn:Hrm; simpl; [|done].
      unfold within_limit, should_disqualify_player. simpl.
      intros Hp Hbig. apply Hp.
      assert (Hin : card_in c (hand p) = true).
      { destruct (card_in c (hand p)) eqn:Hc; [done|].
        assert (Hnot : c ∉ hand p).
        { intros Hel. apply card_in_true in Hel. congruence. }
        pose proof (remove_card_miss p c Hnot) as Hmiss.
        unfold remove_card in Hmiss.
        rewrite Hrm in Hmiss. discriminate Hmiss. }
      destruct (list_remove_first_in _ _ Hin) as (h'' & Hrm' & Hlen & _).
      rewrite Hrm in Hrm'. injection Hrm' as <-.
      apply Nat.ltb_lt in Hbig. apply Nat.ltb_lt. lia. }
  assert (Hall' : ∀ i p', players g' !! i = Some p' → within_limit p').
  { intros i p' Hp'.
    destruct (Forall2_lookup_r _ _ _ _ _ H Hp') as (p & Hp & Hstep).
    apply Hstep. by apply (Hall i). }
  split; [done|].
  pose proof (within_limit_violations _ Hall') as Hnone.
  split; [done|].
  unfold validate_game_state. rewrite Hnone. simpl.
  destruct (Nat.leb_spec (length (select is_active (players g'))) 1);
    split; intros; try done; lia.
Qed.

(** ** Moves that succeed *)

(** A card that is in the hand and fits the discard pile is accepted. *)
Lemma play_card_succeeds g p card :
  players g !! current_player_index g = Some p →
  card_in card (hand p) = true →
  can_play_card card (get_last_played_card g) = true →
  ∃ g', play_card g (Seat (current_player_index g)) card = Return (true, g').
Proof.
  intros Hp Hin Hplay. rewrite (play_card_accepted g p card Hp Hin Hplay).
  destruct (discard_phase_total g p card Hp Hin) as (_ & Hwf1 & _).
  destruct (peak_phase_total _ card Hwf1) as (g2 & -> & _ & Hwf2 & Hi2 & _).
  simpl. rewrite discard_phase_index in Hi2. rewrite <- Hi2.
  destruct (finish_phase_total g2 card Hwf2) as (g' & -> & _). eauto.
Qed.

Lemma is_empty_true cards : is_empty cards = true ↔ cards = [].
Proof.
  unfold is_empty. rewrite Nat.eqb_eq. split; [apply nil_length_inv|by intros ->].
Qed.

(** X10. [get_player_options] offers exactly the moves that will succeed.
    For the current player, when active, the playable cards are the cards
    with which [play_card] returns [True], in hand order, and the draw flag
    is set exactly when [draw_card] returns [True]; anybody else, and a
    current player who is out, is offered nothing. *)
Theorem options_are_the_moves_that_succeed (g : PeakGame) (p : Player) :
  players g !! current_player_index g = Some p →
  (is_active p = true →
     ∃ playable can_draw,
       get_player_options g (Seat (current_player_index g))
       = Return (playable, can_draw)
       ∧ playable
         = List.filter (λ card, can_play_card card (get_last_played_card g))
             (hand p)
       ∧ (∀ card, card ∈ playable
            ↔ ∃ g', play_card g (Seat (current_player_index g)) card
                    = Return (true, g'))
       ∧ (can_draw = true
          ↔ ∃ g', draw_card g (Seat (current_player_index g))
                  = Return (true, g')))
  ∧ (is_active p = false →
       get_player_options g (Seat (current_player_index g))
       = Return ([], false))
  ∧ (∀ player, same_player player (current_player_index g) = false →
       get_player_options g player = Return ([], false)).
Proof.
  intros Hp. assert (Hwf : well_formed g) by (by eapply lookup_lt_Some).
  assert (Hrun : ∀ player,
    get_player_options g player
    = if negb (same_player player (current_player_index g))
      then Return ([], false)
      else if negb (is_active p) then Return ([], false)
      else Return
        (List.filter (λ card, can_play_card card (get_last_played_card g))
           (hand p), negb (is_empty (deck g)))).
  { intros player. unfold get_player_options.
    rewrite get_current_player_wf by done. simpl.
    destruct (same_player player (current_player_index g)); simpl; [|done].
    rewrite (proj2 (player_at_Return _ _ _) Hp). simpl.
    by destruct (is_active p). }
  split; [|split].
  - intros Hact. eexists _, _. split.
    { rewrite Hrun. simpl. rewrite Nat.eqb_refl, Hact. simpl. reflexivity. }
    split; [done|]. split.
    + intros card. rewrite list_elem_of_In, filter_In, <- list_elem_of_In.
      split.
      * intros [Hin Hplay]. apply card_in_true in Hin.
        by apply (play_card_succeeds g p).
      * intros [g' Hplay]. apply play_card_inv in Hplay
          as [[? _]|(_ & _ & p' & g1 & Hp' & Hin & Hok & _)]; [done|].
        rewrite Hp in Hp'. injection Hp' as <-.
        by apply card_in_true in Hin.
    + rewrite negb_true_iff. split.
      * intros Hne.
        destruct (draw_card_cases g (Seat (current_player_index g)) Hwf)
          as [[Hsame _]|[(_ & Hd & _)|(_ & rest & c & q & g' & _ & _ & _ & Hdraw)]].
        -- simpl in Hsame. by rewrite Nat.eqb_refl in Hsame.
        -- apply is_empty_true in Hd. congruence.
        -- eauto.
      * intros [g' Hdraw].
        destruct (draw_card_cases g (Seat (current_player_index g)) Hwf)
          as [[_ H']|[(_ & _ & H')|(_ & rest & c & q & g'' & Hd & _)]];
          try (rewrite Hdraw in H'; discriminate H').
        destruct (is_empty (deck g)) eqn:He; [|done].
        apply is_empty_true in He. rewrite He in Hd. by destruct rest.
  - intros Hact. rewrite Hrun. simpl. by rewrite Nat.eqb_refl, Hact.
  - intros player Hother. rewrite Hrun. by rewrite Hother.
Qed.

(** X11. A current player with nothing to draw and no card that fits the
    discard pile blocks the game: whoever calls [play_card] or [draw_card],
    with whatever card, gets [False] and the game as it was, so the turn
    never passes. *)
Theorem no_option_means_no_move (g : PeakGame) (p : Player) :
  players g !! current_player_index g = Some p →
  deck g = [] →
  (∀ c, c ∈ hand p → can_play_card c (get_last_played_card g) = false) →
  get_player_options g (Seat (current_player_index g)) = Return ([], false)
  ∧ ∀ player card,
      play_card g player card = Return (false, g)
      ∧ draw_card g player = Return (false, g).
Proof.
  intros Hp Hdeck Hnone.
  assert (Hwf : well_formed g) by (by eapply lookup_lt_Some).
  split.
  - unfold get_player_options. rewrite get_current_player_wf by done. simpl.
    rewrite Nat.eqb_refl. simpl.
    rewrite (proj2 (player_at_Return _ _ _) Hp). simpl.
    destruct (is_active p); simpl; [|done]. rewrite Hdeck. simpl.
    do 2 f_equal.
    assert (Hfil : ∀ h, (∀ c, c ∈ h →
                     can_play_card c (get_last_played_card g) = false) →
      List.filter (λ card, can_play_card card (get_last_played_card g)) h = []).
    { induction h as [|x h IH]; intros Hh; simpl; [done|].
      rewrite (Hh x) by (by left). apply IH. intros c Hc. apply Hh. by right. }
    by apply Hfil.
  - intros player card. split.
    + rewrite play_card_unfold. rewrite get_current_player_wf by done. simpl.
      destruct (same_player player (current_player_index g)); simpl; [|done].
      rewrite (proj2 (player_at_Return _ _ _) Hp). simpl.
      destruct (card_in card (hand p)) eqn:Hin; simpl; [|done].
      apply card_in_true in Hin. by rewrite (Hnone _ Hin).
    + unfold draw_card. rewrite get_current_player_wf by done. simpl.
      rewrite Hdeck, deal_card_nil.
      by destruct (same_player player (current_player_index g)).
Qed.

(** A game in which somebody has finished is declared over. *)
Lemma check_game_over_finished g i p :
  players g !! i = Some p → has_finished p = true →
  game_over (_check_game_over g) = true.
Proof.
  intros Hp Hfin. unfold _check_game_over.
  destruct (get_winner (players g)) as [w|] eqn:Hw; simpl.
  - by destruct (length (select is_active (players g)) =? 0).
  - unfold get_winner in Hw.
    destruct (select is_active (players g)) as [|a [|b l]] eqn:Hsel;
      simpl in *; [done|done|].
    destruct (select has_finished (players g)) as [|x l'] eqn:Hf; [|done].
    rewrite select_nil in Hf. rewrite (Hf _ _ Hp) in Hfin. done.
Qed.

Lemma finish_phase_progress g card g' :
  well_formed g →
  finish_phase g (current_player_index g) card = Return (true, g') →
  game_over g' = true
  ∨ ∃ p', players g' !! current_player_index g' = Some p'
          ∧ is_active p' = true.
Proof.
  intros Hwf Hrun. pose proof Hwf as [p Hp]%lookup_lt_is_Some.
  destruct (finish_phase_cases g card p Hp) as (g'' & Hrun' & Hcases).
  rewrite Hrun in Hrun'. injection Hrun' as <-.
  assert (Hnext : ∀ x, well_formed x → _next_player x = Return g' →
    game_over g' = true
    ∨ ∃ p', players g' !! current_player_index g' = Some p'
            ∧ is_active p' = true).
  { intros x Hx Hn. apply next_player_Return in Hn as (_ & _ & _ & Hturn);
      [|done].
    destruct Hturn as [[(k & _ & _ & Hact & _) _]|(_ & _ & Hover)];
      [by right|by left]. }
  destruct Hcases as [(_ & _ & ->)|[(_ & _ & _ & Hn)
    |[(_ & _ & rest & c & _ & Hn)|(_ & Hn)]]].
  - left. apply (check_game_over_finished _ (current_player_index g)
                   (finish_game p)); [|done].
    simpl. by apply list_lookup_insert_eq.
  - by apply (Hnext g).
  - apply (Hnext _ (set_player_wf (with_deck g rest) _ _ Hwf) Hn).
  - by apply (Hnext g).
Qed.

(** X12. After a [play_card] or [draw_card] call that returns [True],
    either the game is over or the turn is with a player who is active. *)
Theorem turn_progress (g : PeakGame) (player : PlayerRef) (g' : PeakGame) :
  (∃ card, play_card g player card = Return (true, g'))
  ∨ draw_card g player = Return (true, g') →
  game_over g' = true
  ∨ ∃ p', players g' !! current_player_index g' = Some p'
          ∧ is_active p' = true.
Proof.
  intros [[card Hplay]|Hdraw].
  - apply play_card_inv in Hplay
      as [[? _]|(_ & _ & p & g1 & Hp & Hin & _ & Hpeak & Hfin & _)]; [done|].
    destruct (discard_phase_total g p card Hp Hin) as (_ & Hwf0 & _).
    destruct (peak_phase_total _ card Hwf0) as (g2 & Hpeak' & _ & Hwf1 & _).
    rewrite Hpeak in Hpeak'. injection Hpeak' as <-.
    by apply (finish_phase_progress g1 card).
  - pose proof (draw_card_Return_wf _ _ _ Hdraw) as Hwf.
    destruct (draw_card_cases g player Hwf)
      as [[_ H']|[(_ & _ & H')|(_ & rest & c & p & g'' & _ & _ & Hnext & H')]];
      rewrite Hdraw in H'; try discriminate H'. injection H' as <-.
    apply next_player_Return in Hnext as (_ & _ & _ & Hturn);
      [|by apply set_player_wf].
    destruct Hturn as [[(k & _ & _ & Hact & _) _]|(_ & _ & Hover)];
      [by right|by left].
Qed.

(** ** Where the cards go *)

Lemma peak_phase_piles g card g2 :
  well_formed g → peak_phase g card = Return g2 →
  discard_pile g2 = discard_pile g
  ∧ deck g2 `prefix_of` deck g
  ∧ high_card_played_this_round g2 = high_card_played_this_round g.
Proof.
  intros Hwf Hrun.
  destruct (peak_phase_cases g card Hwf)
    as [[_ H']|[(_ & _ & H')|(_ & j & q & _ & _ & H')]];
    rewrite Hrun in H'; injection H' as ->; [done..|].
  simpl. split; [done|]. split; [|done].
  destruct (deal_cards get_peak_card_penalty (deck g)) as [dealt rest] eqn:Hd.
  apply deal_cards_spec in Hd as [-> _]. simpl. by apply prefix_app_r.
Qed.

Lemma finish_phase_piles g card g' :
  well_formed g →
  finish_phase g (current_player_index g) card = Return (true, g') →
  discard_pile g' = discard_pile g ∧ deck g' `prefix_of` deck g.
Proof.
  intros Hwf Hrun. pose proof Hwf as [p Hp]%lookup_lt_is_Some.
  destruct (finish_phase_cases g card p Hp) as (g'' & Hrun' & Hcases).
  rewrite Hrun in Hrun'. injection Hrun' as <-.
  destruct Hcases as [(_ & _ & ->)|[(_ & _ & _ & Hn)
    |[(_ & _ & rest & c & Hd & Hn)|(_ & Hn)]]].
  - destruct (check_game_over_frame
                (set_player g (current_player_index g) (finish_game p)))
      as (_ & -> & -> & _). done.
  - apply next_player_Return in Hn as (_ & -> & -> & _); done.
  - apply next_player_Return in Hn as (_ & -> & -> & _);
      [|by apply set_player_wf].
    simpl. split; [done|]. rewrite Hd. by apply prefix_app_r.
  - apply next_player_Return in Hn as (_ & -> & -> & _); done.
Qed.

(** X13. Cards move one way.  A [play_card] call that returns [True] puts
    the card given on top of the discard pile, so that it is the last
    played card, and takes cards only from the top of the deck; a
    [draw_card] call that returns [True] takes exactly the top card of the
    deck, puts it at the end of the caller's hand and leaves the discard
    pile alone; [setup_game] too takes only from the top of the deck. *)
Theorem cards_move_one_way (g : PeakGame) (player : PlayerRef) (g' : PeakGame) :
  (∀ card, play_card g player card = Return (true, g') →
     discard_pile g' = discard_pile g ++ [card]
     ∧ get_last_played_card g' = Some card
     ∧ deck g' `prefix_of` deck g)
  ∧ (draw_card g player = Return (true, g') →
     discard_pile g' = discard_pile g
     ∧ ∃ c p p', deck g = deck g' ++ [c]
         ∧ players g !! current_player_index g = Some p
         ∧ players g' !! current_player_index g = Some p'
         ∧ hand p' = hand p ++ [c])
  ∧ discard_pile (setup_game g) = discard_pile g
  ∧ deck (setup_game g) `prefix_of` deck g.
Proof.
  split; [|split; [|split]].
  - intros card Hplay. apply play_card_inv in Hplay
      as [[? _]|(_ & _ & p & g1 & Hp & Hin & _ & Hpeak & Hfin & _)]; [done|].
    destruct (list_remove_first_in _ _ Hin) as (h' & Hrm & _ & _).
    destruct (discard_phase_spec g p card h' Hp Hrm) as (_ & Hd0 & Hdp0 & _).
    destruct (discard_phase_total g p card Hp Hin) as (_ & Hwf0 & _).
    destruct (peak_phase_total _ card Hwf0) as (g2 & Hpeak' & _ & Hwf1 & _).
    rewrite Hpeak in Hpeak'. injection Hpeak' as <-.
    destruct (peak_phase_piles _ card g1 Hwf0 Hpeak) as (Hdp1 & Hd1 & _).
    destruct (finish_phase_piles g1 card g' Hwf1 Hfin) as (Hdp2 & Hd2).
    assert (Hpile : discard_pile g' = discard_pile g ++ [card])
      by (by rewrite Hdp2, Hdp1, Hdp0).
    split; [done|]. split.
    + unfold get_last_played_card. rewrite Hpile. apply last_snoc.
    + rewrite <- Hd0. by etrans.
  - intros Hdraw. pose proof (draw_card_Return_wf _ _ _ Hdraw) as Hwf.
    destruct (draw_card_cases g player Hwf)
      as [[_ H']|[(_ & _ & H')|(_ & rest & c & p & g'' & Hd & Hp & Hnext & H')]];
      rewrite Hdraw in H'; try discriminate H'. injection H' as <-.
    apply next_player_Return in Hnext as (Hps & Hd' & Hdp' & _);
      [|by apply set_player_wf].
    simpl in Hps, Hd', Hdp'. split; [done|].
    exists c, p, (penalised p [c]). rewrite Hd', Hps.
    split; [done|]. split; [done|]. split.
    + by apply list_lookup_insert_eq.
    + apply hand_penalised.
  - unfold setup_game.
    by destruct (deal_hands is_valid_starting_hand_size (players g) (deck g)).
  - unfold setup_game.
    assert (H : ∀ n ps cards, snd (deal_hands n ps cards) `prefix_of` cards).
    { intros n ps. induction ps as [|q ps IH]; intros cards; simpl; [done|].
      destruct (deal_cards n cards) as [dealt rest] eqn:Hd.
      apply deal_cards_spec in Hd as [-> _].
      specialize (IH rest). destruct (deal_hands n ps rest) as [ps' rest'].
      simpl in *. etrans; [exact IH|]. by apply prefix_app_r. }
    specialize (H is_valid_starting_hand_size (players g) (deck g)).
    by destruct (deal_hands is_valid_starting_hand_size (players g) (deck g)).
Qed.

(** ** Going out *)

Lemma can_finish_on_card_not_peak card high :
  can_finish_on_card card high = true → is_peak_card card = false.
Proof.
  unfold can_finish_on_card. by destruct (is_peak_card card).
Qed.

(** A finish that is allowed, in full. *)
Lemma finish_accepted g p card :
  players g !! current_player_index g = Some p →
  hand p = [card] →
  can_play_card card (get_last_played_card g) = true →
  can_finish_on_card card
    (high_card_played_this_round g || is_high_value_card card) = true →
  ∃ g',
    play_card g (Seat (current_player_index g)) card = Return (true, g')
    ∧ players g'
      = <[current_player_index g
          := mkPlayer (name p) [] (is_disqualified p) true]> (players g)
    ∧ deck g' = deck g
    ∧ discard_pile g' = discard_pile g ++ [card]
    ∧ current_player_index g' = current_player_index g
    ∧ round_number g' = round_number g
    ∧ game_over g' = true.
Proof.
  intros Hp Hhand Hplay Hyes.
  assert (Hin : card_in card (hand p) = true)
    by (rewrite Hhand; apply card_in_singleton).
  assert (Hrm : list_remove_first card (hand p) = Some [])
    by (rewrite Hhand; apply list_remove_first_singleton).
  destruct (discard_phase_spec g p card [] Hp Hrm)
    as (Hps1 & Hd1 & Hdp1 & Hi1 & Hh1 & _ & _ & Hr1).
  rewrite (play_card_accepted g p card Hp Hin Hplay).
  unfold peak_phase. rewrite (can_finish_on_card_not_peak _ _ Hyes). simpl.
  set (g1 := discard_phase g (current_player_index g) p card) in *.
  set (p1 := mkPlayer (name p) [] (is_disqualified p) (has_finished p)) in *.
  assert (Hp1 : players g1 !! current_player_index g1 = Some p1).
  { rewrite Hps1, Hi1. apply list_lookup_insert_eq. by eapply lookup_lt_Some. }
  destruct (finish_phase_cases g1 card p1 Hp1) as (g' & Hrun & Hcases).
  rewrite Hi1 in Hrun. rewrite Hrun. exists g'. split; [done|].
  rewrite Hh1 in Hcases.
  destruct Hcases as [(_ & _ & Hg')|[(_ & Hno & _)
    |[(_ & Hno & _)|(Hcards & _)]]]; [|congruence|congruence|done].
  destruct (check_game_over_frame
              (set_player g1 (current_player_index g1) (finish_game p1)))
    as (Fps & Fd & Fdp & Fi & _ & Fr).
  rewrite <- Hg' in Fps, Fd, Fdp, Fi, Fr. simpl in Fps, Fd, Fdp, Fi, Fr.
  rewrite Fps, Fd, Fdp, Fi, Fr, Hps1, Hi1, Hd1, Hdp1, Hr1,
    list_insert_insert_eq.
  repeat apply conj; try done.
  rewrite Hg'.
  apply (check_game_over_finished _ (current_player_index g1) (finish_game p1));
    [|done].
  simpl. apply list_lookup_insert_eq. rewrite Hps1, length_insert, Hi1.
  by eapply lookup_lt_Some.
Qed.

(** X14. Going out.  When the current player plays their only card, the
    play is legal and [can_finish_on_card] accepts the card with the round
    flag as the card itself leaves it, [play_card] returns [True], the player
    is marked finished with an empty hand, nobody else and no pile but the
    discard pile changes, the game is over at once, and the turn pointer
    and the round number stay where they were. *)
Theorem going_out_ends_the_game (g : PeakGame) (p : Player) (card : Card) :
  players g !! current_player_index g = Some p →
  hand p = [card] →
  can_play_card card (get_last_played_card g) = true →
  can_finish_on_card card
    (high_card_played_this_round g || is_high_value_card card) = true →
  ∃ g',
    play_card g (Seat (current_player_index g)) card = Return (true, g')
    ∧ players g'
      = <[current_player_index g
          := mkPlayer (name p) [] (is_disqualified p) true]> (players g)
    ∧ deck g' = deck g
    ∧ discard_pile g' = discard_pile g ++ [card]
    ∧ current_player_index g' = current_player_index g
    ∧ round_number g' = round_number g
    ∧ game_over g' = true.
Proof. apply finish_accepted. Qed.

(** X15. The high-card condition never stops a player from going out on
    an 8, 9 or 10: the card sets the round flag before the finish test
    reads it, so a current player whose only card is a regular 8, 9 or 10
    that fits the discard pile goes out whatever the round flag was. *)
Theorem a_high_last_card_always_goes_out
    (g : PeakGame) (p : Player) (card : Card) :
  players g !! current_player_index g = Some p →
  hand p = [card] →
  can_play_card card (get_last_played_card g) = true →
  card_type card = REGULAR →
  (8 ≤ value card ≤ 10)%Z →
  ∃ g' p',
    play_card g (Seat (current_player_index g)) card = Return (true, g')
    ∧ players g' !! current_player_index g = Some p'
    ∧ has_finished p' = true
    ∧ game_over g' = true.
Proof.
  intros Hp Hhand Hplay Hreg%is_peak_card_false Hval.
  assert (Hhigh : is_high_value_card card = true).
  { unfold is_high_value_card. rewrite Hreg. simpl.
    apply andb_true_iff. split; apply Z.leb_le; lia. }
  assert (Hyes : can_finish_on_card card
            (high_card_played_this_round g || is_high_value_card card) = true).
  { rewrite Hhigh, orb_true_r. unfold can_finish_on_card. rewrite Hreg.
    destruct (Z.leb_spec 1 (value card)), (Z.leb_spec (value card) 4),
      (Z.leb_spec 5 (value card)), (Z.leb_spec (value card) 6),
      (Z.leb_spec 8 (value card)), (Z.leb_spec (value card) 10);
      simpl; auto; lia. }
  destruct (finish_accepted g p card Hp Hhand Hplay Hyes)
    as (g' & Hrun & Hps & _ & _ & _ & _ & Hover).
  exists g', (mkPlayer (name p) [] (is_disqualified p) true).
  split; [done|]. split; [|done].
  rewrite Hps. apply list_lookup_insert_eq. by eapply lookup_lt_Some.
Qed.

Lemma can_finish_on_of_rule card high :
  can_finish_on_card card high = true → can_finish_on card = true.
Proof.
  unfold can_finish_on, can_finish_on_card.
  destruct (is_peak_card card); [done|].
  destruct ((1 <=? value card) && (value card <=? 4))%Z; [done|].
  destruct ((5 <=? value card) && (value card <=? 6))%Z; [done|].
  destruct ((8 <=? value card) && (value card <=? 10))%Z; [done|].
  by destruct (value card =? 7)%Z.
Qed.

(** X16. Nobody goes out by accident.  If a [play_card] call leaves the
    current player, who had not finished and was not disqualified, marked
    as finished, then the card played was that player's only card,
    [can_finish_game] held for the player before the call, and the game is
    over after it. *)
Theorem going_out_needs_can_finish_game
    (g : PeakGame) (player : PlayerRef) (card : Card) (b : bool)
    (g' : PeakGame) (p p' : Player) :
  players g !! current_player_index g = Some p →
  has_finished p = false →
  is_disqualified p = false →
  play_card g player card = Return (b, g') →
  players g' !! current_player_index g = Some p' →
  has_finished p' = true →
  hand p = [card] ∧ can_finish_game p = true ∧ game_over g' = true.
Proof.
  intros Hp Hnot Hdis Hplay Hp' Hfin'.
  apply play_card_inv in Hplay
    as [[_ ->]|(_ & _ & p0 & g1 & Hp0 & Hin & _ & Hpeak & Hfin & Hi1)];
    [congruence|].
  rewrite Hp in Hp0. injection Hp0 as <-.
  destruct (list_remove_first_in _ _ Hin) as (h' & Hrm & Hlen & Hperm).
  destruct (discard_phase_spec g p card h' Hp Hrm) as (Hps0 & _ & _ & Hi0 & _).
  destruct (discard_phase_total g p card Hp Hin) as (_ & Hwf0 & _).
  destruct (peak_phase_total _ card Hwf0) as (g2 & Hpeak' & _ & Hwf1 & _).
  rewrite Hpeak in Hpeak'. injection Hpeak' as <-.
  set (g0 := discard_phase g (current_player_index g) p card) in *.
  set (p1 := mkPlayer (name p) h' (is_disqualified p) (has_finished p)) in *.
  assert (Hp1 : players g0 !! current_player_index g = Some p1).
  { rewrite Hps0. apply list_lookup_insert_eq. by eapply lookup_lt_Some. }
  assert (Hmid : ∃ p2, players g1 !! current_player_index g1 = Some p2
                       ∧ has_finished p2 = false
                       ∧ (hand p2 = [] → h' = [])).
  { rewrite Hi1.
    destruct (peak_phase_cases g0 card Hwf0)
      as [[_ H']|[(_ & _ & H')|(_ & j & q & _ & Hq & H')]];
      rewrite Hpeak in H'; injection H' as ->; [by exists p1..|].
    simpl. destruct (decide (j = current_player_index g)) as [->|Hne].
    - rewrite Hp1 in Hq. injection Hq as <-.
      eexists. split; [apply list_lookup_insert_eq; by eapply lookup_lt_Some|].
      rewrite has_finished_penalised, hand_penalised. split; [done|].
      simpl. by intros [? _]%app_eq_nil.
    - exists p1. by rewrite list_lookup_insert_ne. }
  destruct Hmid as (p2 & Hp2 & Hfin2 & Hnil).
  destruct (finish_phase_cases g1 card p2 Hp2) as (g'' & Hrun & Hcases).
  rewrite Hfin in Hrun. injection Hrun as <-.
  assert (Hsame : ∀ x, well_formed x → _next_player x = Return g' →
            players g' = players x).
  { intros x Hx Hn. by apply next_player_Return in Hn as (? & _). }
  rewrite <- Hi1 in Hp'.
  destruct Hcases as [(Hempty & Hyes & Hg')|[(_ & _ & _ & Hn)
    |[(_ & _ & rest & c & _ & Hn)|(_ & Hn)]]].
  - specialize (Hnil Hempty). subst h'. simpl in Hlen.
    assert (Hhand : hand p = [card]).
    { destruct (hand p) as [|x [|y l]] eqn:Hh; simpl in Hlen; try lia.
      apply card_in_true in Hin.
      apply list_elem_of_singleton in Hin. by subst. }
    split; [done|]. split.
    + unfold can_finish_game. rewrite Hdis, Hhand. simpl.
      by rewrite (can_finish_on_of_rule _ _ Hyes).
    + rewrite Hg'.
      apply (check_game_over_finished _ (current_player_index g1)
               (finish_game p2)); [|done].
      simpl. apply list_lookup_insert_eq. by eapply lookup_lt_Some.
  - rewrite (Hsame g1 Hwf1 Hn) in Hp'. congruence.
  - rewrite (Hsame _ (set_player_wf (with_deck g1 rest) _ _ Hwf1) Hn) in Hp'.
    simpl in Hp'.
    rewrite list_lookup_insert_eq in Hp' by (by eapply lookup_lt_Some).
    injection Hp' as <-. simpl in Hfin'. congruence.
  - rewrite (Hsame g1 Hwf1 Hn) in Hp'. congruence.
Qed.

(** ** A game that has been set up *)

Lemma hand_size_lookup g i p :
  players g !! i = Some p → hand_size g i = length (hand p).
Proof. intros Hp. unfold hand_size. by rewrite Hp. Qed.

Lemma set_player_same g j q :
  players g !! j = Some q → set_player (with_deck g (deck g)) j q = g.
Proof.
  destruct g as [ps d dp i go w h r]. simpl. intros Hq.
  unfold set_player, with_players, with_deck. simpl.
  by rewrite (list_insert_id _ _ _ Hq).
Qed.

Lemma penalised_nil q : length (hand q) ≤ 20 → penalised q [] = q.
Proof.
  intros Hlen. unfold penalised, add_cards, should_disqualify_player. simpl.
  by destruct (Nat.ltb_spec 20 (length (hand q))); [lia|].
Qed.

(** Setting up a fresh game gives a game of the [dealt_out] shape. *)
Lemma fresh_setup_dealt_out shuffle names g :
  shuffle _create_deck ≡ₚ _create_deck →
  PeakGame_init shuffle names = Return g →
  dealt_out (setup_game g).
Proof.
  intros Hperm Hinit. apply Permutation_length in Hperm.
  change (length _create_deck) with 20 in Hperm.
  apply PeakGame_init_Return in Hinit as [Hlen ->].
  destruct names as [|a [|b [|c [|d [|e names]]]]]; try done.
  unfold dealt_out, setup_game, hand_size, is_valid_starting_hand_size. simpl.
  destruct (deal_cards 7 (shuffle _create_deck)) as [h0 r1] eqn:H0.
  destruct (deal_cards 7 r1) as [h1 r2] eqn:H1.
  destruct (deal_cards 7 r2) as [h2 r3] eqn:H2.
  destruct (deal_cards 7 r3) as [h3 r4] eqn:H3.
  apply deal_cards_spec in H0 as [E0 L0], H1 as [E1 L1], H2 as [E2 L2],
    H3 as [E3 L3].
  rewrite E0 in Hperm, L0. subst r1 r2 r3.
  repeat match goal with
         | H : context [length (_ ++ _)] |- _ => rewrite length_app in H
         | H : context [length (rev _)] |- _ => rewrite length_rev in H
         end.
  assert (length h0 = 7 ∧ length h1 = 7 ∧ length h2 = 6
          ∧ length h3 = 0 ∧ length r4 = 0) as (K0 & K1 & K2 & K3 & K4) by lia.
  apply nil_length_inv in K3, K4. subst h3 r4. simpl.
  assert (Hfresh : ∀ n h, length h ≤ 7 →
            is_active (add_cards (Player_init n) h) = true
            ∧ length (hand (add_cards (Player_init n) h)) ≤ 20).
  { intros n h Hh. unfold is_active.
    rewrite is_disqualified_add_cards, has_finished_add_cards, hand_add_cards.
    simpl. split; [|lia].
    destruct (Nat.ltb_spec 20 (length h)); [lia|]. by rewrite andb_false_r. }
  clear L0 L1 L2 L3 Hperm E0.
  repeat apply conj; try done; try lia.
  - intros [|[|[|[|i]]]] p Hp; simpl in Hp; try done;
      injection Hp as <-;
      first [apply Hfresh; simpl; lia | split; [done|simpl; lia]].
  - intros [|[|[|i]]] _ Hi; simpl; rewrite ?hand_add_cards; simpl; lia.
Qed.

Lemma dealt_out_setup g : dealt_out g → setup_game g = g.
Proof.
  intros (Hd & _). unfold setup_game. rewrite Hd, deal_hands_nil.
  destruct g. simpl in *. by subst.
Qed.

Lemma dealt_out_draw g player :
  dealt_out g → draw_card g player = Return (false, g).
Proof.
  intros (Hd & _ & Hlen & Hi & _). unfold draw_card.
  rewrite get_current_player_wf by (unfold well_formed; lia). simpl.
  rewrite Hd, deal_card_nil.
  by destruct (same_player player (current_player_index g)).
Qed.

(** A play on a [dealt_out] game is refused, or takes one card from the
    hand of a seat before the fourth and passes the turn to the next
    seat. *)
Lemma dealt_out_play g player card :
  dealt_out g →
  ∃ b g', play_card g player card = Return (b, g')
          ∧ dealt_out g'
          ∧ (current_player_index g = 3 → b = false ∧ g' = g).
Proof.
  intros Hdealt. pose proof Hdealt as (Hd & Hover & Hlen & Hi & Hall & H3 & Hspare).
  assert (Hwf : well_formed g) by (unfold well_formed; lia).
  pose proof Hwf as [p Hp]%lookup_lt_is_Some.
  rewrite play_card_unfold. rewrite get_current_player_wf by done. simpl.
  destruct (same_player player (current_player_index g)); simpl;
    [|by exists false, g].
  rewrite (proj2 (player_at_Return _ _ _) Hp). simpl.
  destruct (card_in card (hand p)) eqn:Hin; simpl; [|by exists false, g].
  destruct (can_play_card card (get_last_played_card g)) eqn:Hplay; simpl;
    [|by exists false, g].
  assert (Hc : current_player_index g < 3).
  { destruct (decide (current_player_index g = 3)) as [Heq|]; [|lia].
    rewrite Heq in Hp. rewrite (hand_size_lookup _ _ _ Hp) in H3.
    apply nil_length_inv in H3. rewrite H3 in Hin. done. }
  pose proof (Hspare _ (le_n _) Hc) as Htwo.
  rewrite (hand_size_lookup _ _ _ Hp) in Htwo.
  destruct (list_remove_first_in _ _ Hin) as (h' & Hrm & Hlen' & _).
  destruct (discard_phase_spec g p card h' Hp Hrm)
    as (Hps0 & Hd0 & _ & Hi0 & _ & Hgo0 & _).
  destruct (discard_phase_total g p card Hp Hin) as (_ & Hwf0 & Hact0).
  set (g0 := discard_phase g (current_player_index g) p card) in *.
  set (p1 := mkPlayer (name p) h' (is_disqualified p) (has_finished p)) in *.
  assert (Hp1 : players g0 !! current_player_index g0 = Some p1).
  { rewrite Hps0, Hi0. apply list_lookup_insert_eq. lia. }
  assert (Hall0 : ∀ i q, players g0 !! i = Some q →
            is_active q = true ∧ length (hand q) ≤ 20).
  { intros i q Hq. rewrite Hps0 in Hq.
    destruct (decide (i = current_player_index g)) as [->|Hne].
    - rewrite list_lookup_insert_eq in Hq by lia. injection Hq as <-.
      destruct (Hall _ _ Hp) as [Hact Hle]. split; [exact Hact|simpl; lia].
    - rewrite list_lookup_insert_ne in Hq by done. by apply (Hall i). }
  assert (Hpeak : peak_phase g0 card = Return g0).
  { destruct (peak_phase_cases g0 card Hwf0)
      as [[_ H']|[(_ & _ & H')|(_ & j & q & _ & Hq & H')]]; [done..|].
    rewrite H', Hd0, Hd. change (deal_cards get_peak_card_penalty []) with
      (@nil Card, @nil Card). cbn [fst snd].
    rewrite penalised_nil by (by apply (Hall0 j)).
    rewrite <- Hd, <- Hd0. by rewrite set_player_same. }
  rewrite Hpeak. simpl. rewrite <- Hi0.
  destruct (finish_phase_cases g0 card p1 Hp1) as (g' & Hrun & Hcases).
  rewrite Hrun. exists true, g'. split; [done|].
  assert (Hh' : h' ≠ []) by (intros ->; simpl in Hlen'; lia).
  destruct Hcases as [(? & _)|[(? & _)|[(? & _)|(_ & Hnext)]]]; [done..|].
  destruct (next_player_spec g0 Hwf0)
    as (g'' & Hnext' & Hps' & Hd' & _ & _ & Hturn).
  rewrite Hnext in Hnext'. injection Hnext' as <-.
  destruct Hturn as [(Hna & Hgo' & _)|[Hnone _]].
  2:{ destruct (Hall0 _ _ Hp1) as [Hact _].
      rewrite (Hnone _ _ Hp1) in Hact. done. }
  assert (Hlen0 : length (players g0) = 4)
    by (by rewrite Hps0, length_insert).
  assert (Hidx : current_player_index g' = current_player_index g + 1).
  { destruct Hna as (k & Hk & Hj & _ & Hmin). rewrite Hlen0, Hi0 in Hj, Hmin.
    destruct k as [|k].
    - rewrite Hj, Nat.add_0_r. apply Nat.mod_small. lia.
    - assert (Hlt : (current_player_index g + 1 + 0) mod 4 < length (players g0)).
      { rewrite Hlen0. apply Nat.mod_upper_bound. lia. }
      apply lookup_lt_is_Some in Hlt as [q Hq].
      destruct (Hall0 _ _ Hq) as [Hact _].
      rewrite (Hmin 0 q) in Hact; [done|lia|done]. }
  split; [|lia].
  unfold dealt_out. rewrite Hd', Hd0, Hgo', Hgo0, Hps', Hlen0, Hidx.
  repeat apply conj; try done; try lia.
  - unfold hand_size in *. rewrite Hps', Hps0.
    by rewrite list_lookup_insert_ne by lia.
  - intros i Hge Hlt. unfold hand_size in *. rewrite Hps', Hps0.
    rewrite list_lookup_insert_ne by lia. apply Hspare; lia.
Qed.

Lemma dealt_out_run g ms :
  dealt_out g → ∃ g', run g ms = Return g' ∧ dealt_out g'.
Proof.
  revert g. induction ms as [|m ms IH]; intros g Hg; simpl; [by exists g|].
  destruct m as [|player card|player]; simpl.
  - rewrite dealt_out_setup by done. by apply IH.
  - destruct (dealt_out_play g player card Hg) as (b & g1 & -> & Hg1 & _).
    simpl. by apply IH.
  - rewrite dealt_out_draw by done. simpl. by apply IH.
Qed.

(** X17. A game that has been set up cannot be played to the end.  After
    [setup_game] on a freshly constructed game, whatever the shuffle and
    the names, every sequence of [setup_game], [play_card] and [draw_card]
    calls returns without raising and leaves a game that is not over, with
    an empty deck and the turn no further than the fourth player; and once
    the turn is with the fourth player, who holds no card, every
    [play_card] and every [draw_card] call returns [False] and changes
    nothing. *)
Theorem a_set_up_game_never_ends shuffle names g0 (ms : list Move) :
  shuffle _create_deck ≡ₚ _create_deck →
  PeakGame_init shuffle names = Return g0 →
  ∃ g, run (setup_game g0) ms = Return g
       ∧ game_over g = false
       ∧ deck g = []
       ∧ current_player_index g ≤ 3
       ∧ hand_size g 3 = 0
       ∧ (current_player_index g = 3 →
          ∀ player card,
            play_card g player card = Return (false, g)
            ∧ draw_card g player = Return (false, g)).
Proof.
  intros Hperm Hinit.
  pose proof (fresh_setup_dealt_out shuffle names g0 Hperm Hinit) as H0.
  destruct (dealt_out_run (setup_game g0) ms H0) as (g & Hrun & Hg).
  exists g. split; [done|].
  pose proof Hg as (Hd & Hover & _ & Hi & _ & H3 & _).
  repeat apply conj; try done.
  intros Hthree player card. split; [|by apply dealt_out_draw].
  destruct (dealt_out_play g player card Hg) as (b & g' & Hplay & _ & Hstay).
  destruct (Hstay Hthree) as [-> ->]. done.
Qed.

(** ** The winner on record *)

Lemma get_winner_lt ps w : get_winner ps = Some w → w < length ps.
Proof.
  unfold get_winner. intros H.
  assert (Hin : w ∈ select is_active ps ∨ w ∈ select has_finished ps).
  { destruct (length (select is_active ps) =? 1).
    - left. destruct (select is_active ps); simplify_eq/=. by left.
    - destruct (length (select is_active ps) =? 0); [done|].
      right. destruct (select has_finished ps); simplify_eq/=. by left. }
  destruct Hin as [Hin|Hin]; apply elem_of_select in Hin as (p & Hp & _);
    by eapply lookup_lt_Some.
Qed.

Lemma settled_same x y :
  winner y = winner x → game_over y = game_over x →
  length (players y) = length (players x) →
  winner_is_settled x → winner_is_settled y.
Proof.
  unfold winner_is_settled. intros -> -> ->. done.
Qed.

Lemma check_game_over_settled x :
  winner_is_settled x →
  winner_is_settled (_check_game_over x)
  ∧ (game_over x = true → game_over (_check_game_over x) = true).
Proof.
  intros Hx. split; [|apply check_game_over_monotone].
  destruct (check_game_over_frame x) as (Hps & _).
  intros w Hw. rewrite Hps. revert Hw. unfold _check_game_over.
  destruct (get_winner (players x)) as [w0|] eqn:Hwin; simpl.
  - assert (Hlt : w0 < length (players x)) by (by apply get_winner_lt).
    destruct (length (select is_active (players x)) =? 0); simpl;
      intros [= <-]; done.
  - destruct (length (select is_active (players x)) =? 0); simpl; intros Hw.
    + split; [done|]. by apply Hx.
    + by apply Hx.
Qed.

Lemma next_player_settled x g' :
  well_formed x → _next_player x = Return g' →
  winner_is_settled x →
  winner_is_settled g' ∧ (game_over x = true → game_over g' = true).
Proof.
  intros Hwf Hn Hx.
  destruct (next_player_spec x Hwf) as (g'' & Hn' & Hps & _ & _ & _ & Hturn).
  rewrite Hn in Hn'. injection Hn' as <-.
  destruct Hturn as [(_ & Hgo & Hw & _)|[_ ->]].
  - split; [|by rewrite Hgo]. apply (settled_same x); [done..| |done].
    by rewrite Hps.
  - by apply check_game_over_settled.
Qed.

Lemma finish_phase_settled g card g' :
  well_formed g →
  finish_phase g (current_player_index g) card = Return (true, g') →
  winner_is_settled g →
  winner_is_settled g' ∧ (game_over g = true → game_over g' = true).
Proof.
  intros Hwf Hrun Hg. pose proof Hwf as [p Hp]%lookup_lt_is_Some.
  destruct (finish_phase_cases g card p Hp) as (g'' & Hrun' & Hcases).
  rewrite Hrun in Hrun'. injection Hrun' as <-.
  assert (Hset : ∀ d q, winner_is_settled
            (set_player (with_deck g d) (current_player_index g) q)).
  { intros d q. apply (settled_same g); [done..| |done].
    simpl. apply length_insert. }
  destruct Hcases as [(_ & _ & ->)|[(_ & _ & _ & Hn)
    |[(_ & _ & rest & c & _ & Hn)|(_ & Hn)]]].
  - apply (check_game_over_settled
             (set_player g (current_player_index g) (finish_game p))).
    apply (settled_same g); [done..| |done]. simpl. apply length_insert.
  - by apply (next_player_settled g).
  - apply (next_player_settled _ g' (set_player_wf (with_deck g rest) _ _ Hwf) Hn).
    apply Hset.
  - by apply (next_player_settled g).
Qed.

Lemma play_card_settled g player card b g' :
  play_card g player card = Return (b, g') →
  winner_is_settled g →
  winner_is_settled g' ∧ (game_over g = true → game_over g' = true).
Proof.
  intros Hplay Hg. apply play_card_inv in Hplay
    as [[_ ->]|(_ & _ & p & g1 & Hp & Hin & _ & Hpeak & Hfin & _)]; [done|].
  destruct (list_remove_first_in _ _ Hin) as (h' & Hrm & _ & _).
  destruct (discard_phase_spec g p card h' Hp Hrm)
    as (Hps0 & _ & _ & _ & _ & Hgo0 & Hw0 & _).
  destruct (discard_phase_total g p card Hp Hin) as (_ & Hwf0 & _).
  destruct (peak_phase_total _ card Hwf0) as (g2 & Hpeak' & _ & Hwf1 & _ & Hlen1).
  rewrite Hpeak in Hpeak'. injection Hpeak' as <-.
  assert (Hsame : winner g1 = winner g ∧ game_over g1 = game_over g).
  { destruct (peak_phase_cases _ card Hwf0)
      as [[_ H']|[(_ & _ & H')|(_ & j & q & _ & _ & H')]];
      rewrite Hpeak in H'; injection H' as ->; done. }
  destruct Hsame as [Hw1 Hgo1].
  assert (Hg1 : winner_is_settled g1).
  { apply (settled_same g); [done..| |done].
    by rewrite Hlen1, Hps0, length_insert. }
  destruct (finish_phase_settled g1 card g' Hwf1 Hfin Hg1) as [Hg' Hmono].
  split; [done|]. intros Hover. apply Hmono. by rewrite Hgo1.
Qed.

Lemma draw_card_settled g player b g' :
  draw_card g player = Return (b, g') →
  winner_is_settled g →
  winner_is_settled g' ∧ (game_over g = true → game_over g' = true).
Proof.
  intros Hdraw Hg. pose proof (draw_card_Return_wf _ _ _ Hdraw) as Hwf.
  destruct (draw_card_cases g player Hwf)
    as [[_ H']|[(_ & _ & H')|(_ & rest & c & p & g'' & _ & _ & Hnext & H')]];
    rewrite Hdraw in H'; injection H' as -> ->; [done..|].
  apply (next_player_settled _ _
           (set_player_wf (with_deck g rest) _ _ Hwf) Hnext).
  apply (settled_same g); [done..| |done]. simpl. apply length_insert.
Qed.

(** X18. Starting from a game with no winner on record, such as a newly
    constructed one, then after any sequence of [setup_game], [play_card]
    and [draw_card] calls a winner is on record only if the game is over,
    and the winner is then one of the game's players; and a game that was
    over is still over. *)
Theorem a_winner_means_the_game_is_over
    (g : PeakGame) (ms : list Move) (g' : PeakGame) :
  winner g = None →
  run g ms = Return g' →
  (∀ w, winner g' = Some w →
     game_over g' = true ∧ is_Some (players g' !! w))
  ∧ (game_over g = true → game_over g' = true).
Proof.
  intros Hnone Hrun.
  assert (Hg : winner_is_settled g) by (intros w Hw; congruence).
  assert (H : winner_is_settled g' ∧ (game_over g = true → game_over g' = true)).
  { clear Hnone. revert g Hrun Hg.
    induction ms as [|m ms IH]; intros g Hrun Hg; simpl in Hrun.
    - by injection Hrun as <-.
    - apply bind_Return in Hrun as (g1 & Hstep & Hrun).
      assert (H1 : winner_is_settled g1
                   ∧ (game_over g = true → game_over g1 = true)).
      { destruct m as [|player card|player]; simpl in Hstep.
        - injection Hstep as <-. split.
          + destruct (setup_game_total g) as (_ & Hlen & _).
            apply (settled_same g); [| |done|done]; unfold setup_game;
              by destruct (deal_hands is_valid_starting_hand_size
                             (players g) (deck g)).
          + unfold setup_game.
            by destruct (deal_hands is_valid_starting_hand_size
                           (players g) (deck g)).
        - apply bind_Return in Hstep as ([b g1'] & Hplay & [= <-]).
          by eapply play_card_settled.
        - apply bind_Return in Hstep as ([b g1'] & Hdraw & [= <-]).
          by eapply draw_card_settled. }
      destruct H1 as [Hg1 Hm1]. destruct (IH g1 Hrun Hg1) as [Hg' Hm'].
      split; [done|]. auto. }
  destruct H as [Hset Hmono]. split; [|done].
  intros w Hw. destruct (Hset w Hw) as [Hover Hlt].
  split; [done|]. by apply lookup_lt_is_Some.
Qed.

(** ** The further statements at concrete inputs *)

Lemma opening_game_constructed :
  PeakGame_init unshuffled roster = Return opening_game.
Proof. reflexivity. Qed.

Lemma stacked_game_constructed :
  PeakGame_init stacked roster = Return stacked_game.
Proof. reflexivity. Qed.

(** X1 read on a deck of two cards asked for three. *)
Lemma deal_cards_closed_form_witness :
  deal_cards 3 [Reg 1; Reg 2] = ([Reg 2; Reg 1], []).
Proof.
  apply (proj1 (proj2 (deal_cards_closed_form 3 [Reg 1; Reg 2]))).
  simpl. lia.
Defined.

(** X4 read on a hand holding the card between two others. *)
Lemma remove_card_first_occurrence_witness :
  remove_card (mkPlayer "a" [Reg 1; Reg 2; Reg 1] false false) (Reg 2)
  = (mkPlayer "a" [Reg 1; Reg 1] false false, true).
Proof.
  apply (proj2 (remove_card_first_occurrence
                  (mkPlayer "a" [Reg 1; Reg 2; Reg 1] false false) (Reg 2))
           [Reg 1] [Reg 1] eq_refl).
  apply (bool_decide_unpack (Reg 2 ∉ [Reg 1])). vm_compute. exact I.
Defined.


(** X7 read on a regular 9 with the round flag set. *)
Lemma can_finish_on_is_the_rule_with_the_flag_set_witness :
  can_finish_on (Reg 9) = true.
Proof.
  apply (proj2 (can_finish_on_is_the_rule_with_the_flag_set (Reg 9) true)).
  reflexivity.
Defined.

(** X8 read on the stacked game through the first finish. *)
Lemma flags_are_never_cleared_witness :
  ∃ g', run stacked_game first_finish = Return g'
        ∧ length (players g') = length (players stacked_game).
Proof.
  eexists. split; [vm_compute; reflexivity|].
  match goal with
  | |- length (players ?g') = _ =>
      apply (proj1 (flags_are_never_cleared stacked_game first_finish g'
                      ltac:(vm_compute; reflexivity)))
  end.
Defined.

(** X9 read on the opening game, set up and played once. *)
Lemma nobody_over_the_limit_goes_unnoticed_witness :
  ∃ g', run opening_game [Setup; Play (Seat 0) Peak] = Return g'
        ∧ disqualification_violations (players g') = [].
Proof.
  eexists. split; [vm_compute; reflexivity|].
  match goal with
  | |- disqualification_violations (players ?g') = _ =>
      apply (proj1 (proj2 (nobody_over_the_limit_goes_unnoticed
               opening_game [Setup; Play (Seat 0) Peak] g'
               ltac:(intros [|[|[|[|i]]]] p Hp; simpl in Hp;
                     try discriminate Hp; injection Hp as <-;
                     intros Hbig; discriminate Hbig)
               ltac:(vm_compute; reflexivity))))
  end.
Defined.

(** X10 read on the game as dealt: the second player is offered nothing
    while the turn is with the first. *)
Lemma options_are_the_moves_that_succeed_witness :
  get_player_options (setup_game opening_game) (Seat 1) = Return ([], false).
Proof.
  apply (proj2 (proj2 (options_are_the_moves_that_succeed
                  (setup_game opening_game)
                  (mkPlayer "Alice" (replicate 7 Peak) false false)
                  eq_refl)) (Seat 1)).
  reflexivity.
Defined.

(** X11 read on the game as dealt once three cards have been played: the
    turn is with the fourth player. *)
Lemma no_option_means_no_move_witness :
  ∃ g, run (setup_game opening_game) three_plays = Return g
       ∧ current_player_index g = 3
       ∧ ∀ player card,
           play_card g player card = Return (false, g)
           ∧ draw_card g player = Return (false, g).
Proof.
  eexists. split; [vm_compute; reflexivity|]. split; [reflexivity|].
  match goal with
  | |- ∀ player card, play_card ?g _ _ = _ ∧ _ =>
      apply (proj2 (no_option_means_no_move g
               (mkPlayer "Diana" [] false false) eq_refl eq_refl
               ltac:(intros c Hc; by apply elem_of_nil in Hc)))
  end.
Defined.

(** X12 read on the first play of the game as dealt. *)
Lemma turn_progress_witness :
  ∃ g', play_card (setup_game opening_game) (Seat 0) Peak = Return (true, g')
        ∧ (game_over g' = true
           ∨ ∃ p', players g' !! current_player_index g' = Some p'
                   ∧ is_active p' = true).
Proof.
  eexists. split; [vm_compute; reflexivity|].
  match goal with
  | |- game_over ?g' = true ∨ _ =>
      apply (turn_progress (setup_game opening_game) (Seat 0) g')
  end.
  left. exists Peak. vm_compute. reflexivity.
Defined.

(** X13 read on the first play of the game as dealt. *)
Lemma cards_move_one_way_witness :
  ∃ g', play_card (setup_game opening_game) (Seat 0) Peak = Return (true, g')
        ∧ get_last_played_card g' = Some Peak.
Proof.
  eexists. split; [vm_compute; reflexivity|].
  match goal with
  | |- get_last_played_card ?g' = _ =>
      apply (proj1 (cards_move_one_way (setup_game opening_game) (Seat 0) g')
               Peak ltac:(vm_compute; reflexivity))
  end.
Defined.

(** X14 read on the stacked game after a round of draws: the first player
    holds the 8 alone. *)
Lemma going_out_ends_the_game_witness :
  ∃ g, run stacked_game one_round_of_draws = Return g
       ∧ ∃ g', play_card g (Seat 0) (Reg 8) = Return (true, g')
               ∧ game_over g' = true.
Proof.
  eexists. split; [vm_compute; reflexivity|].
  match goal with
  | |- ∃ g', play_card ?g _ _ = _ ∧ _ =>
      destruct (going_out_ends_the_game g
                  (mkPlayer "Alice" [Reg 8] false false) (Reg 8)
                  eq_refl eq_refl eq_refl eq_refl)
        as (g' & Hrun & _ & _ & _ & _ & _ & Hover)
  end.
  exists g'. split; [exact Hrun|exact Hover].
Defined.

(** X15 read on the same game: the round flag is clear and the 8 still
    goes out. *)
Lemma a_high_last_card_always_goes_out_witness :
  ∃ g, run stacked_game one_round_of_draws = Return g
       ∧ high_card_played_this_round g = false
       ∧ ∃ g', play_card g (Seat 0) (Reg 8) = Return (true, g')
               ∧ game_over g' = true.
Proof.
  eexists. split; [vm_compute; reflexivity|]. split; [reflexivity|].
  match goal with
  | |- ∃ g', play_card ?g _ _ = _ ∧ _ =>
      destruct (a_high_last_card_always_goes_out g
                  (mkPlayer "Alice" [Reg 8] false false) (Reg 8)
                  eq_refl eq_refl eq_refl eq_refl ltac:(simpl; lia))
        as (g' & p' & Hrun & _ & _ & Hover)
  end.
  exists g'. split; [exact Hrun|exact Hover].
Defined.

(** X16 read on the same play. *)
Lemma going_out_needs_can_finish_game_witness :
  ∃ g, run stacked_game one_round_of_draws = Return g
       ∧ ∃ g', play_card g (Seat 0) (Reg 8) = Return (true, g')
               ∧ can_finish_game (mkPlayer "Alice" [Reg 8] false false) = true
               ∧ game_over g' = true.
Proof.
  eexists. split; [vm_compute; reflexivity|].
  match goal with
  | |- ∃ g', play_card ?g _ _ = _ ∧ _ => set (G := g)
  end.
  eexists. split; [vm_compute; reflexivity|].
  match goal with
  | |- can_finish_game ?p = true ∧ game_over ?g' = true =>
      apply (proj2 (going_out_needs_can_finish_game
               G (Seat 0) (Reg 8) true g' p
               (mkPlayer "Alice" [] false true)
               eq_refl eq_refl eq_refl ltac:(vm_compute; reflexivity)
               eq_refl eq_refl))
  end.
Defined.

(** X17 read on the opening game and one play after the deal. *)
Lemma a_set_up_game_never_ends_witness :
  ∃ g, run (setup_game opening_game) [Play (Seat 0) Peak] = Return g
       ∧ game_over g = false
       ∧ deck g = [].
Proof.
  destruct (a_set_up_game_never_ends unshuffled roster opening_game
              [Play (Seat 0) Peak] (Permutation_refl _) eq_refl)
    as (g & Hrun & Hover & Hdeck & _).
  exists g. split; [exact Hrun|]. split; [exact Hover|exact Hdeck].
Defined.

(** X18 read on the stacked game through the first finish. *)
Lemma a_winner_means_the_game_is_over_witness :
  ∃ g', run stacked_game first_finish = Return g'
        ∧ winner g' = Some 0
        ∧ game_over g' = true.
Proof.
  eexists. split; [vm_compute; reflexivity|]. split; [reflexivity|].
  match goal with
  | |- game_over ?g' = true =>
      apply (proj1 (proj1 (a_winner_means_the_game_is_over
               stacked_game first_finish g' eq_refl
               ltac:(vm_compute; reflexivity)) 0 eq_refl))
  end.
Defined.
